(** * sway/config.c: configuration loading, reload and variable substitution

    A shallow embedding of [sway/config.c].  C strings are [string]s,
    nullable pointers are [option]s, the heap of configuration stores is a
    [gmap] from addresses to store contents, and the global variable
    [config] is a field of the program state.  Undefined behaviour of the C
    program (null dereference, out-of-bounds read, ...) is a [Fault]. *)

From Stdlib Require Import String Ascii List Arith Lia.
From stdpp Require Import base option list gmap strings.

Open Scope string_scope.
Open Scope list_scope.
Open Scope nat_scope.

(** ** Faults and results *)

Inductive fault : Type :=
| NullDeref
| UseAfterFree
| OutOfBounds
| Uninitialised.

Inductive result (A : Type) : Type :=
| Ok (a : A)
| Fault (f : fault).
Arguments Ok {A} a.
Arguments Fault {A} f.

(** ** C string primitives *)

Definition NUL : ascii := Ascii.zero.
Definition marker : ascii := "$"%char.

(** [strncpy(dst, s, n); dst[n] = 0] read back as a C string. *)
Fixpoint string_take (n : nat) (s : string) : string :=
  match n, s with
  | S n', String c s' => String c (string_take n' s')
  | _, _ => EmptyString
  end.

(** The C string at [s + n]. *)
Fixpoint string_drop (n : nat) (s : string) : string :=
  match n, s with
  | S n', String _ s' => string_drop n' s'
  | _, _ => s
  end.

(** [strstr(hay, needle)]: offset of the first occurrence, [None] for NULL. *)
Fixpoint strstr (hay needle : string) : option nat :=
  if String.prefix needle hay then Some 0
  else match hay with
       | EmptyString => None
       | String _ hay' => S <$> strstr hay' needle
       end.

(** [s[i]]: the terminator sits at index [strlen(s)]; anything beyond it is
    outside the buffer. *)
Definition char_at (s : string) (i : nat) : result ascii :=
  match String.get i s with
  | Some c => Ok c
  | None => if decide (i = String.length s) then Ok NUL else Fault OutOfBounds
  end.

(** ** Data model (config.h) *)

Definition addr := positive.

Record sway_variable := {
  var_name : string;
  var_value : string
}.

Record sway_binding := {
  keys : list string;
  command : string
}.

Record sway_mode := {
  name : string;
  bindings : list sway_binding
}.

Record output_config := {
  oc_name : string
}.

Record workspace_output := {
  output : string;
  workspace : string
}.

Inductive swayc_layouts := L_NONE | L_HORIZ | L_VERT | L_STACKED | L_TABBED | L_FLOATING.

(** Modelled from the spec: [struct sway_config] is declared in config.h,
    which is not part of the sources at hand; the fields are the ones that
    [config_defaults] initialises.  A [list_t] of owned [sway_mode] pointers
    is the list of the addresses with the structs they point to;
    [current_mode] is a bare address. *)
Record sway_config := {
  symbols : list sway_variable;
  modes : list (addr * sway_mode);
  workspace_outputs : list workspace_output;
  output_configs : list output_config;
  cmd_queue : list string;
  current_mode : addr;
  floating_mod : Z;
  default_layout : swayc_layouts;
  default_orientation : swayc_layouts;
  focus_follows_mouse : bool;
  mouse_warping : bool;
  reloading : bool;
  active : bool;
  failed : bool;
  auto_back_and_forth : bool;
  gaps_inner : Z;
  gaps_outer : Z
}.

(** ** Program state *)

Inductive log_level := L_ERROR | L_INFO | L_DEBUG.

Inductive event : Type :=
| EvLog (lvl : log_level) (fmt : string) (arg : string)
| EvHandleCommand (line : string) (ok : bool)
| EvArrangeWindows
| EvInputInit
| EvAccess (path : string) (readable : bool)
| EvStderr (fmt : string) (arg : string).

(** [stores] holds every allocated [struct sway_config]; [config] is the
    global [struct sway_config *config]; [trace] records the calls made to
    the external collaborators. *)
Record world := {
  stores : gmap addr sway_config;
  config : option addr;
  trace : list event
}.

(** [*config] *)
Definition deref_config (w : world) : result sway_config :=
  match config w with
  | None => Fault NullDeref
  | Some p =>
      match stores w !! p with
      | Some c => Ok c
      | None => Fault UseAfterFree
      end
  end.

(** ** do_var_replacement *)

(** The body of [if (strstr(str + i, var->name) == str + i) { ... }]. *)
Definition replace_at (i : nat) (var : sway_variable) (str : string) : string :=
  string_take i str +:+ var_value var
    +:+ string_drop (i + String.length (var_name var)) str.

Definition try_var (i : nat) (str : string) (var : sway_variable) : string :=
  if decide (strstr (string_drop i str) (var_name var) = Some 0)
  then replace_at i var str
  else str.

(** The [for (j = 0; j < config->symbols->length; ++j)] loop. *)
Definition try_vars (syms : list sway_variable) (i : nat) (str : string) : string :=
  fold_left (try_var i) syms str.

(** The [for (i = 0; str[i]; ++i)] loop.  The string may grow on every
    replacement, so the loop is bounded by [fuel]; [None] is fuel exhausted. *)
Fixpoint var_loop (fuel : nat) (w : world) (i : nat) (str : string)
  : option (result string) :=
  match fuel with
  | O => None
  | S fuel' =>
      match char_at str i with
      | Fault f => Some (Fault f)
      | Ok c =>
          if decide (c = NUL) then Some (Ok str)
          else if decide (c = marker) then
            match deref_config w with
            | Fault f => Some (Fault f)
            | Ok cfg => var_loop fuel' w (S i) (try_vars (symbols cfg) i str)
            end
          else var_loop fuel' w (S i) str
      end
  end.

Definition do_var_replacement (fuel : nat) (w : world) (str : string)
  : option (result string) :=
  var_loop fuel w 0 str.

(** ** The state-and-fault monad of the stateful functions *)

Definition M (A : Type) : Type := world → result (A * world).

Global Instance M_ret : MRet M := λ A a w, Ok (a, w).

Global Instance M_bind : MBind M := λ A B k m w,
  match m w with
  | Ok (a, w') => k a w'
  | Fault f => Fault f
  end.

Definition raise {A : Type} (f : fault) : M A := λ _, Fault f.

Definition lift_result {A : Type} (r : result A) : M A := λ w,
  match r with
  | Ok a => Ok (a, w)
  | Fault f => Fault f
  end.

(** [config] read as an rvalue, and [config = p]. *)
Definition get_config : M (option addr) := λ w, Ok (config w, w).

Definition set_config (p : option addr) : M unit := λ w,
  Ok (tt, {| stores := stores w; config := p; trace := trace w |}).

(** [*config] read, and [*config] updated in place. *)
Definition load_store : M sway_config := λ w, lift_result (deref_config w) w.

Definition write_store (c : sway_config) : M unit := λ w,
  match config w with
  | None => Fault NullDeref
  | Some p =>
      Ok (tt, {| stores := <[p := c]> (stores w); config := config w;
                 trace := trace w |})
  end.

Definition modify_store (f : sway_config → sway_config) : M unit :=
  c ← load_store; write_store (f c).

Definition emit (e : event) : M unit := λ w,
  Ok (tt, {| stores := stores w; config := config w; trace := trace w ++ [e] |}).

Definition sway_log (lvl : log_level) (fmt arg : string) : M unit :=
  emit (EvLog lvl fmt arg).

(** [malloc(sizeof(struct sway_config))]: an address that holds no store. *)
Definition malloc_config : M addr := λ w, Ok (fresh (dom (stores w)), w).

(** [malloc(sizeof(struct sway_mode))]: an address of no store and of no
    mode that a store owns. *)
Definition mode_addrs (w : world) : gset addr :=
  ⋃ ((λ pc : addr * sway_config, list_to_set (modes pc.2).*1)
       <$> map_to_list (stores w)).

Definition malloc_mode : M addr := λ w,
  let live := dom (stores w) ∪ mode_addrs w in
  Ok (fresh (match config w with Some p => {[p]} ∪ live | None => live end), w).

(** ** Field assignments *)

Definition set_current_mode (m : addr) (c : sway_config) : sway_config :=
  {| symbols := symbols c; modes := modes c;
     workspace_outputs := workspace_outputs c;
     output_configs := output_configs c; cmd_queue := cmd_queue c;
     current_mode := m;
     floating_mod := floating_mod c; default_layout := default_layout c;
     default_orientation := default_orientation c;
     focus_follows_mouse := focus_follows_mouse c;
     mouse_warping := mouse_warping c; reloading := reloading c;
     active := active c; failed := failed c;
     auto_back_and_forth := auto_back_and_forth c;
     gaps_inner := gaps_inner c; gaps_outer := gaps_outer c |}.

Definition set_reloading (b : bool) (c : sway_config) : sway_config :=
  {| symbols := symbols c; modes := modes c;
     workspace_outputs := workspace_outputs c;
     output_configs := output_configs c; cmd_queue := cmd_queue c;
     current_mode := current_mode c;
     floating_mod := floating_mod c; default_layout := default_layout c;
     default_orientation := default_orientation c;
     focus_follows_mouse := focus_follows_mouse c;
     mouse_warping := mouse_warping c; reloading := b;
     active := active c; failed := failed c;
     auto_back_and_forth := auto_back_and_forth c;
     gaps_inner := gaps_inner c; gaps_outer := gaps_outer c |}.

Definition set_active (b : bool) (c : sway_config) : sway_config :=
  {| symbols := symbols c; modes := modes c;
     workspace_outputs := workspace_outputs c;
     output_configs := output_configs c; cmd_queue := cmd_queue c;
     current_mode := current_mode c;
     floating_mod := floating_mod c; default_layout := default_layout c;
     default_orientation := default_orientation c;
     focus_follows_mouse := focus_follows_mouse c;
     mouse_warping := mouse_warping c; reloading := reloading c;
     active := b; failed := failed c;
     auto_back_and_forth := auto_back_and_forth c;
     gaps_inner := gaps_inner c; gaps_outer := gaps_outer c |}.

Definition set_failed (b : bool) (c : sway_config) : sway_config :=
  {| symbols := symbols c; modes := modes c;
     workspace_outputs := workspace_outputs c;
     output_configs := output_configs c; cmd_queue := cmd_queue c;
     current_mode := current_mode c;
     floating_mod := floating_mod c; default_layout := default_layout c;
     default_orientation := default_orientation c;
     focus_follows_mouse := focus_follows_mouse c;
     mouse_warping := mouse_warping c; reloading := reloading c;
     active := active c; failed := b;
     auto_back_and_forth := auto_back_and_forth c;
     gaps_inner := gaps_inner c; gaps_outer := gaps_outer c |}.

(** [list_add(config->cmd_queue, cmd)] *)
Definition queue_cmd (cmd : string) (c : sway_config) : sway_config :=
  {| symbols := symbols c; modes := modes c;
     workspace_outputs := workspace_outputs c;
     output_configs := output_configs c; cmd_queue := cmd_queue c ++ [cmd];
     current_mode := current_mode c;
     floating_mod := floating_mod c; default_layout := default_layout c;
     default_orientation := default_orientation c;
     focus_follows_mouse := focus_follows_mouse c;
     mouse_warping := mouse_warping c; reloading := reloading c;
     active := active c; failed := failed c;
     auto_back_and_forth := auto_back_and_forth c;
     gaps_inner := gaps_inner c; gaps_outer := gaps_outer c |}.

(** ** free_config and config_defaults *)

(** [free_config(p)]: the store owns its variables, modes, bindings, queued
    strings, workspace outputs and output configs, and the loops of
    [free_config] release each of them before the store itself; all of them
    leave the heap together. *)
Definition free_config (p : addr) : M unit := λ w,
  match stores w !! p with
  | None => Fault UseAfterFree
  | Some _ =>
      Ok (tt, {| stores := delete p (stores w); config := config w;
                 trace := trace w |})
  end.

(** The store that [config_defaults] leaves behind, given the address [m]
    that [malloc] returned for the default mode. *)
Definition default_config (m : addr) : sway_config :=
  {| symbols := [];
     modes := [(m, {| name := "default"; bindings := [] |})];
     workspace_outputs := [];
     output_configs := [];
     cmd_queue := [];
     current_mode := m;
     floating_mod := 0;
     default_layout := L_NONE;
     default_orientation := L_NONE;
     focus_follows_mouse := true;
     mouse_warping := true;
     reloading := false;
     active := false;
     failed := false;
     auto_back_and_forth := false;
     gaps_inner := 0;
     gaps_outer := 0 |}.

(** [config_defaults(config)]: every field of the freshly allocated store is
    written, so the indeterminate contents [malloc] left are never read. *)
Definition config_defaults : M unit :=
  m ← malloc_mode;
  write_store (default_config m).

(** ** External collaborators *)

(** Modelled from the spec: [struct cmd_handler] and its [config_type] are
    declared in commands.h, which is not part of the sources at hand.  The
    classification of a handler is keybinding-only, requires-running-session,
    or no special requirement. *)
Inductive cmd_config_type := CMD_COMPOSITOR_READY | CMD_KEYBIND | CMD_ANYTIME.

Record cmd_handler := {
  config_type : cmd_config_type
}.

Global Instance cmd_config_type_eq_dec : EqDecision cmd_config_type.
Proof. solve_decision. Defined.

(** The functions of stringop.h, readline.h and commands.h that config.c
    calls.  A handler works on the store that the global [config] points to
    and reports success. *)
Class Collaborators := {
  strip_whitespace : string → string;
  strip_comments : string → string;
  whitespace : string;
  split_string : string → string → list string;
  find_handler : string → option cmd_handler;
  handle_command : string → sway_config → bool * sway_config
}.

(** The process environment and the file system: [getenv], [access(path,
    R_OK) != -1], and [fopen(path, "r")] with the lines that [read_line]
    returns until [feof]. *)
Class OS := {
  getenv : string → option string;
  access_R_OK : string → bool;
  fopen_r : string → option (list string)
}.

(** ** get_config_path *)

Section get_config_path.
Context {collab : Collaborators} {os : OS}.

(** [strlen(p)] of a possibly null pointer. *)
Definition strlen (p : option string) : result nat :=
  match p with
  | Some s => Ok (String.length s)
  | None => Fault NullDeref
  end.

Definition search_paths : list string :=
  [ "/.sway/config"; "/sway/config"; "/etc/sway/config";
    "/.i3/config"; "/.i3/config"; "/etc/i3/config" ].

(** [file_exists(path)], recorded. *)
Definition file_exists (path : string) (tr : list event)
  : bool * list event :=
  (access_R_OK path, tr ++ [EvAccess path (access_R_OK path)]).

(** Iterations [i, i + n) of the loop over [search_paths]; [paths] holds
    the three prefixes [home], [conf] and the empty string. *)
Fixpoint search_fixed (paths : list string) (i n : nat) (tr : list event)
  : option string * list event :=
  match n with
  | O => (None, tr)
  | S n' =>
      let test := nth (i mod 3) paths "" +:+ nth i search_paths "" in
      let tr := tr ++ [EvLog L_DEBUG "Checking for config at %s" test] in
      let '(found, tr) := file_exists test tr in
      if found then (Some test, tr)
      else search_fixed paths (S i) n' tr
  end.

(** The loop over the entries of [XDG_CONFIG_DIRS]. *)
Fixpoint search_xdg (dirs : list string) (tr : list event)
  : option string * list event :=
  match dirs with
  | [] => (None, tr)
  | d :: dirs' =>
      let test := d +:+ "/sway/config" in
      let '(found, tr) := file_exists test tr in
      if found then (Some test, tr)
      else search_xdg dirs' tr
  end.

(** The result is the path found ([None] for NULL) with the record of the
    log lines written and the files probed, or a fault. *)
Definition get_config_path : result (option string * list event) :=
  let home := getenv "HOME" in
  let conf := getenv "XDG_CONFIG_HOME" in
  let '(home, conf) :=
    match conf with
    | Some c => (home, Some c)
    | None =>
        match home with
        | Some h => (Some h, Some (h +:+ "/.config"))
        | None => (Some "", Some "")
        end
    end in
  match strlen home with
  | Fault f => Fault f
  | Ok _ =>
      match strlen conf with
      | Fault f => Fault f
      | Ok _ =>
          let paths := [default "" home; default "" conf; ""] in
          let '(found, tr) :=
            search_fixed paths 0 (length search_paths) [] in
          match found with
          | Some p => Ok (Some p, tr)
          | None =>
              let tr :=
                tr ++ [EvLog L_DEBUG
                         "Trying to find config in XDG_CONFIG_DIRS" ""] in
              match getenv "XDG_CONFIG_DIRS" with
              | Some xdg_config_dirs =>
                  Ok (search_xdg (split_string xdg_config_dirs ":") tr)
              | None => Ok (None, tr)
              end
          end
      end
  end.
End get_config_path.

(** ** read_config and load_config *)

Section read_config.
Context {collab : Collaborators} {os : OS}.

(** [args->items[0]]: the first slot of an empty [list_t] was never
    written. *)
Definition items0 (args : list string) : M string :=
  match args with
  | a :: _ => mret a
  | [] => raise Uninitialised
  end.

(** [handle_command(line)], run on the store behind the global [config]. *)
Definition call_handle_command (line : string) : M bool :=
  c ← load_store;
  let '(ok, c') := handle_command line c in
  write_store c';;
  emit (EvHandleCommand line ok);;
  mret ok.

(** The part of the loop body after the two [goto _continue] tests. *)
Definition dispatch (is_active : bool) (line : string) (success : bool)
  : M bool :=
  let args := split_string line whitespace in
  arg0 ← items0 args;
  match find_handler arg0 with
  | Some handler =>
      if bool_decide (config_type handler = CMD_KEYBIND) then
        sway_log L_ERROR "Invalid command during config ``%s''" line;;
        mret success
      else if bool_decide (config_type handler = CMD_COMPOSITOR_READY)
                && negb is_active then
        sway_log L_DEBUG "Deferring command ``%s''" line;;
        modify_store (queue_cmd line);;
        mret success
      else
        ok ← call_handle_command line;
        if negb ok then
          sway_log L_DEBUG "Config load failed for line ``%s''" line;;
          modify_store (set_failed true);;
          mret false
        else mret success
  | None =>
      sway_log L_ERROR "Invalid command ``%s''" line;;
      mret success
  end.

(** The first character of a normalised line decides between skipping it,
    closing a mode block and dispatching it. *)
Definition first_char (line : string) : ascii :=
  match line with
  | EmptyString => NUL
  | String c _ => c
  end.

(** One iteration of [while (!feof(file))]; [raw] is what [read_line]
    returned and [success] the local flag before the iteration. *)
Definition parse_line (default_mode : addr) (is_active : bool)
    (raw : string) (success : bool) : M bool :=
  let line := strip_whitespace raw in
  let line := strip_comments line in
  if decide (first_char line = NUL) then mret success
  else if decide (first_char line = "}"%char) then
    modify_store (set_current_mode default_mode);;
    mret success
  else dispatch is_active line success.

Fixpoint parse_lines (default_mode : addr) (is_active : bool)
    (file : list string) (success : bool) : M bool :=
  match file with
  | [] => mret success
  | raw :: rest =>
      success ← parse_line default_mode is_active raw success;
      parse_lines default_mode is_active rest success
  end.

(** The statements of [read_config] before the loop; the result is
    [old_config] and [default_mode]. *)
Definition read_config_prologue (is_active : bool) : M (option addr * addr) :=
  old_config ← get_config;
  p ← malloc_config;
  set_config (Some p);;
  config_defaults;;
  c ← load_store;
  let default_mode := current_mode c in
  (if is_active then
     sway_log L_DEBUG "Performing configuration file reload" "";;
     modify_store (set_reloading true);;
     modify_store (set_active true)
   else mret tt);;
  mret (old_config, default_mode).

(** The statements of [read_config] after the loop. *)
Definition read_config_epilogue (is_active : bool) (old_config : option addr)
  : M unit :=
  (if is_active then
     modify_store (set_reloading false);;
     emit EvArrangeWindows
   else mret tt);;
  match old_config with
  | Some old => free_config old
  | None => mret tt
  end.

Definition read_config (file : list string) (is_active : bool) : M bool :=
  '(old_config, default_mode) ← read_config_prologue is_active;
  success ← parse_lines default_mode is_active file true;
  read_config_epilogue is_active old_config;;
  mret success.

(** [get_config_path()] called from a stateful function: its log lines and
    file probes join the trace. *)
Definition call_get_config_path : M (option string) := λ w,
  match get_config_path with
  | Ok (path, tr) =>
      Ok (path, {| stores := stores w; config := config w;
                   trace := trace w ++ tr |})
  | Fault f => Fault f
  end.

Definition load_config (file : option string) : M bool :=
  sway_log L_INFO "Loading config" "";;
  emit EvInputInit;;
  path ← match file with
         | Some f => mret (Some f)
         | None => call_get_config_path
         end;
  match path with
  | None =>
      sway_log L_ERROR "Unable to find a config file!" "";;
      mret false
  | Some path =>
      match fopen_r path with
      | None =>
          emit (EvStderr "Unable to open %s for reading" path);;
          mret false
      | Some f =>
          live ← get_config;
          match live with
          | Some _ => read_config f true
          | None => read_config f false
          end
      end
  end.
End read_config.

(** ** Vocabulary of the properties *)

Section vocabulary.
Context {collab : Collaborators} {os : OS}.

(** The line as the loop body sees it after the two strip calls. *)
Definition normalize (raw : string) : string :=
  strip_comments (strip_whitespace raw).

(** A line that reaches the dispatcher: neither empty nor a closing brace. *)
Definition directive (line : string) : Prop :=
  first_char line ≠ NUL ∧ first_char line ≠ "}"%char.

Definition leading_token (line : string) : option string :=
  head (split_string line whitespace).

Definition handler_of (line : string) : option cmd_handler :=
  leading_token line ≫= find_handler.

(** Every normalised directive line has at least one token. *)
Definition tokenizer_total : Prop :=
  ∀ raw, directive (normalize raw) →
         split_string (normalize raw) whitespace ≠ [].

Definition is_directive (line : string) : bool :=
  bool_decide (first_char line ≠ NUL)
  && bool_decide (first_char line ≠ "}"%char).

(** The handler of the line is classified requires-running-session. *)
Definition requires_session (line : string) : bool :=
  is_directive line
  && match handler_of line with
     | Some h => bool_decide (config_type h = CMD_COMPOSITOR_READY)
     | None => false
     end.

(** The handler of the line is classified keybinding-only. *)
Definition keybind_only (line : string) : bool :=
  is_directive line
  && match handler_of line with
     | Some h => bool_decide (config_type h = CMD_KEYBIND)
     | None => false
     end.

(** The leading token of the line has no handler. *)
Definition unknown_command (line : string) : bool :=
  is_directive line
  && match handler_of line with
     | Some _ => false
     | None => true
     end.

(** The line is handed to [handle_command] during this pass. *)
Definition immediate (is_active : bool) (line : string) : bool :=
  is_directive line
  && match handler_of line with
     | Some h =>
         negb (bool_decide (config_type h = CMD_KEYBIND))
         && negb (bool_decide (config_type h = CMD_COMPOSITOR_READY)
                  && negb is_active)
     | None => false
     end.

(** The lines for which the trace records a call of [handle_command]. *)
Definition handled (evs : list event) : list string :=
  omap (λ e, match e with
             | EvHandleCommand line _ => Some line
             | _ => None
             end) evs.

(** The trace records a call of [handle_command] that reported failure. *)
Definition handler_failed (evs : list event) : Prop :=
  ∃ line, EvHandleCommand line false ∈ evs.

(** The world after the live store at [p] became [c] and [evs] happened. *)
Definition after (w : world) (p : addr) (c : sway_config) (evs : list event)
  : world :=
  {| stores := <[p := c]> (stores w); config := Some p;
     trace := trace w ++ evs |}.

(** One iteration of the parse loop, as a relation between the local flag
    and the live store before and after it, and the events it causes. *)
Inductive line_step (dm : addr) (is_active : bool) (line : string)
    (s : bool) (c : sway_config) : bool → sway_config → list event → Prop :=
| step_skip :
    first_char line = NUL →
    line_step dm is_active line s c s c []
| step_close :
    first_char line = "}"%char →
    line_step dm is_active line s c s (set_current_mode dm c) []
| step_keybind h :
    directive line → handler_of line = Some h →
    config_type h = CMD_KEYBIND →
    line_step dm is_active line s c s c
      [EvLog L_ERROR "Invalid command during config ``%s''" line]
| step_defer h :
    directive line → handler_of line = Some h →
    config_type h = CMD_COMPOSITOR_READY → is_active = false →
    line_step dm is_active line s c s (queue_cmd line c)
      [EvLog L_DEBUG "Deferring command ``%s''" line]
| step_handle_ok h c' :
    directive line → handler_of line = Some h →
    config_type h ≠ CMD_KEYBIND →
    (config_type h ≠ CMD_COMPOSITOR_READY ∨ is_active = true) →
    handle_command line c = (true, c') →
    line_step dm is_active line s c s c' [EvHandleCommand line true]
| step_handle_fail h c' :
    directive line → handler_of line = Some h →
    config_type h ≠ CMD_KEYBIND →
    (config_type h ≠ CMD_COMPOSITOR_READY ∨ is_active = true) →
    handle_command line c = (false, c') →
    line_step dm is_active line s c false (set_failed true c')
      [EvHandleCommand line false;
       EvLog L_DEBUG "Config load failed for line ``%s''" line]
| step_unknown :
    directive line → handler_of line = None →
    line_step dm is_active line s c s c
      [EvLog L_ERROR "Invalid command ``%s''" line].

(** The parse loop over the normalised lines of a file. *)
Inductive lines_run (dm : addr) (is_active : bool)
  : list string → bool → sway_config → bool → sway_config → list event
    → Prop :=
| run_nil s c :
    lines_run dm is_active [] s c s c []
| run_cons line lines s c s1 c1 evs1 s2 c2 evs2 :
    line_step dm is_active line s c s1 c1 evs1 →
    lines_run dm is_active lines s1 c1 s2 c2 evs2 →
    lines_run dm is_active (line :: lines) s c s2 c2 (evs1 ++ evs2).

(** The worlds in which the test [!feof(file)] of the parse loop is
    evaluated: before the first line, between the lines, and after the
    last one. *)
Fixpoint parse_states (default_mode : addr) (is_active : bool)
    (file : list string) (success : bool) (w : world) : list world :=
  w :: match file with
       | [] => []
       | raw :: rest =>
           match parse_line default_mode is_active raw success w with
           | Ok (success', w') =>
               parse_states default_mode is_active rest success' w'
           | Fault _ => []
           end
       end.

(** The candidates of [get_config_path] in its search order, with the two
    prefixes as the function computes them. *)
Definition home_dir : string := default "" (getenv "HOME").

Definition config_home : string :=
  match getenv "XDG_CONFIG_HOME" with
  | Some c => c
  | None =>
      match getenv "HOME" with
      | Some h => h +:+ "/.config"
      | None => ""
      end
  end.

Definition fixed_candidates (home conf : string) : list string :=
  [ home +:+ "/.sway/config"; conf +:+ "/sway/config"; "/etc/sway/config";
    home +:+ "/.i3/config"; conf +:+ "/.i3/config"; "/etc/i3/config" ].

Definition xdg_candidates : list string :=
  match getenv "XDG_CONFIG_DIRS" with
  | Some dirs => (λ d, d +:+ "/sway/config") <$> split_string dirs ":"
  | None => []
  end.

Definition candidates : list string :=
  fixed_candidates home_dir config_home ++ xdg_candidates.

(** The search order as the specification words it: [$CONFIG_HOME] is
    [$XDG_CONFIG_HOME] if set, else [$HOME/.config], and a missing
    variable counts as the empty string. *)
Definition spec_config_home : string :=
  match getenv "XDG_CONFIG_HOME" with
  | Some c => c
  | None => default "" (getenv "HOME") +:+ "/.config"
  end.

Definition spec_candidates : list string :=
  fixed_candidates (default "" (getenv "HOME")) spec_config_home
  ++ xdg_candidates.

Fixpoint first_readable (l : list string) : option string :=
  match l with
  | [] => None
  | p :: l' => if access_R_OK p then Some p else first_readable l'
  end.

(** The candidates that are probed: all up to and including the first
    readable one. *)
Fixpoint probed (l : list string) : list string :=
  match l with
  | [] => []
  | p :: l' => p :: (if access_R_OK p then [] else probed l')
  end.

Definition accesses (tr : list event) : list string :=
  omap (λ e, match e with
             | EvAccess p _ => Some p
             | _ => None
             end) tr.
End vocabulary.

(** No name in the table is a prefix of the text at offset [i]. *)
Definition unmatched (syms : list sway_variable) (i : nat) (str : string) : Prop :=
  ∀ var, var ∈ syms → String.prefix (var_name var) (string_drop i str) = false.

(** A C string has no terminator inside. *)
Definition cstring (s : string) : Prop := ∀ i, String.get i s ≠ Some NUL.

(** The addresses that the two [malloc] calls of [read_config] return. *)
Definition new_store_addr (w : world) : addr := fresh (dom (stores w)).

Definition new_mode_addr (w : world) : addr :=
  fresh ({[new_store_addr w]} ∪ (dom (stores w) ∪ mode_addrs w)).

(** The store with which the parse loop starts. *)
Definition initial_store (is_active : bool) (m : addr) : sway_config :=
  if is_active then set_active true (set_reloading true (default_config m))
  else default_config m.

(** The global [config] is null or points to an allocated store. *)
Definition wf_world (w : world) : Prop :=
  ∀ old, config w = Some old → is_Some (stores w !! old).

(** The store has the default mode at address [dm], and its current mode is
    one of its modes. *)
Definition mode_inv (dm : addr) (c : sway_config) : Prop :=
  (∃ m, (dm, m) ∈ modes c ∧ name m = "default")
  ∧ current_mode c ∈ (modes c).*1.

(** ** Concrete collaborators, environments and worlds *)

Module Demo.
Fixpoint skip_spaces (s : string) : string :=
  match s with
  | String c s' => if decide (c = " "%char) then skip_spaces s' else s
  | EmptyString => EmptyString
  end.

Fixpoint cut_comment (s : string) : string :=
  match s with
  | String c s' =>
      if decide (c = "#"%char) then EmptyString
      else String c (cut_comment s')
  | EmptyString => EmptyString
  end.

Fixpoint is_delim (delims : string) (c : ascii) : bool :=
  match delims with
  | String d delims' => bool_decide (d = c) || is_delim delims' c
  | EmptyString => false
  end.

Fixpoint split_from (delims cur s : string) : list string :=
  match s with
  | String c s' =>
      if is_delim delims c then
        (if decide (cur = EmptyString) then split_from delims EmptyString s'
         else cur :: split_from delims EmptyString s')
      else split_from delims (cur +:+ String c EmptyString) s'
  | EmptyString => if decide (cur = EmptyString) then [] else [cur]
  end.

Definition registry (token : string) : option cmd_handler :=
  if decide (token = "exec") then Some {| config_type := CMD_COMPOSITOR_READY |}
  else if decide (token = "bindsym") then Some {| config_type := CMD_KEYBIND |}
  else if decide (token = "set") then Some {| config_type := CMD_ANYTIME |}
  else if decide (token = "gaps") then Some {| config_type := CMD_ANYTIME |}
  else None.

(** [set] succeeds, every other command fails; no handler changes the
    store. *)
Definition run (line : string) (c : sway_config) : bool * sway_config :=
  (String.prefix "set" line, c).

Definition collaborators : Collaborators :=
  {| strip_whitespace := skip_spaces;
     strip_comments := cut_comment;
     whitespace := " ";
     split_string := λ s delims, split_from delims EmptyString s;
     find_handler := registry;
     handle_command := run |}.

Definition env (home conf dirs : option string) (name : string)
  : option string :=
  if decide (name = "HOME") then home
  else if decide (name = "XDG_CONFIG_HOME") then conf
  else if decide (name = "XDG_CONFIG_DIRS") then dirs
  else None.

Definition config_file : list string :=
  [ "# sway config"; "set $mod Mod4"; "exec term"; "gaps 4"; "}";
    "bindsym x"; "frobnicate"; "exec bar"; "" ].

(** [HOME=/home/u], nothing else set, and [/home/u/.i3/config] the only
    file. *)
Definition os_i3 : OS :=
  {| getenv := env (Some "/home/u") None None;
     access_R_OK := λ p, bool_decide (p = "/home/u/.i3/config");
     fopen_r := λ p, if decide (p = "/home/u/.i3/config")
                     then Some config_file else None |}.

(** [HOME] unset and [XDG_CONFIG_HOME=/xdg]. *)
Definition os_no_home : OS :=
  {| getenv := env None (Some "/xdg") None;
     access_R_OK := λ p, bool_decide (p = "/xdg/sway/config");
     fopen_r := λ p, if decide (p = "/xdg/sway/config")
                     then Some config_file else None |}.

(** Nothing set; [/.config/sway/config] is the only file, and it is
    readable by [access] but not by [fopen]. *)
Definition os_bare : OS :=
  {| getenv := env None None None;
     access_R_OK := λ p, bool_decide (p = "/.config/sway/config");
     fopen_r := λ _, None |}.

Definition store_with (syms : list sway_variable) : sway_config :=
  {| symbols := syms;
     modes := [(2%positive, {| name := "default"; bindings := [] |})];
     workspace_outputs := []; output_configs := []; cmd_queue := [];
     current_mode := 2%positive; floating_mod := 0;
     default_layout := L_NONE; default_orientation := L_NONE;
     focus_follows_mouse := true; mouse_warping := true;
     reloading := false; active := true; failed := false;
     auto_back_and_forth := false; gaps_inner := 0; gaps_outer := 0 |}.

(** A world whose live store sits at address 1. *)
Definition world_with (syms : list sway_variable) : world :=
  {| stores := {[ 1%positive := store_with syms ]};
     config := Some 1%positive; trace := [] |}.

(** The world before the first load. *)
Definition world_empty : world :=
  {| stores := ∅; config := None; trace := [] |}.
End Demo.

(** ** Vocabulary of the further properties *)

(** The string has neither a marker nor a terminator inside. *)
Definition plain (s : string) : Prop :=
  ∀ k, String.get k s ≠ Some marker ∧ String.get k s ≠ Some NUL.

Definition marker_free (s : string) : Prop :=
  ∀ k, String.get k s ≠ Some marker.

(** The number of markers in a string. *)
Fixpoint count_markers (s : string) : nat :=
  match s with
  | EmptyString => 0
  | String c s' => (if decide (c = marker) then 1 else 0) + count_markers s'
  end.

(** No character of [bad] occurs in the string. *)
Fixpoint avoids (bad : list ascii) (s : string) : bool :=
  match s with
  | EmptyString => true
  | String c s' => if decide (c ∈ bad) then false else avoids bad s'
  end.

(** Behind the index there is a marker, with no terminator before it. *)
Definition marker_ahead (i : nat) (s : string) : Prop :=
  ∃ k, i ≤ k ∧ String.get k s = Some marker
       ∧ ∀ j, i ≤ j < k → ∃ c, String.get j s = Some c ∧ c ≠ NUL.

(** The events that the parse loop itself can cause. *)
Definition parse_event (e : event) : Prop :=
  match e with
  | EvLog _ _ _ | EvHandleCommand _ _ => True
  | _ => False
  end.

(** A line that the loop skips or that closes a mode block. *)
Definition inert {collab : Collaborators} (raw : string) : Prop :=
  first_char (normalize raw) = NUL ∨ first_char (normalize raw) = "}"%char.

(** The states that the scan of a call on [str0] passes through: the index
    and the string at each evaluation of the loop test [str[i]]. *)
Inductive scan_reaches (w : world) (str0 : string) : nat → string → Prop :=
| reach_start :
    scan_reaches w str0 0 str0
| reach_plain i s c :
    scan_reaches w str0 i s →
    char_at s i = Ok c → c ≠ NUL → c ≠ marker →
    scan_reaches w str0 (S i) s
| reach_marker i s cfg :
    scan_reaches w str0 i s →
    char_at s i = Ok marker → deref_config w = Ok cfg →
    scan_reaches w str0 (S i) (try_vars (symbols cfg) i s).

(** A store whose current mode is a mode block other than the default
    one, and a world in which it is the live store. *)
Definition demo_store_in_mode : sway_config :=
  {| symbols := [];
     modes := [ (2%positive, {| name := "default"; bindings := [] |});
                (7%positive, {| name := "resize"; bindings := [] |}) ];
     workspace_outputs := []; output_configs := [];
     cmd_queue := ["exec term"];
     current_mode := 7%positive; floating_mod := 0;
     default_layout := L_NONE; default_orientation := L_NONE;
     focus_follows_mouse := true; mouse_warping := true;
     reloading := false; active := false; failed := false;
     auto_back_and_forth := false; gaps_inner := 0; gaps_outer := 0 |}.

Definition demo_world_in_mode : world :=
  {| stores := {[ 1%positive := demo_store_in_mode ]};
     config := Some 1%positive; trace := [] |}.

(** * Properties *)

(** ** C strings *)

Lemma get_Some_lt (s : string) : ∀ i c, String.get i s = Some c → i < String.length s.
Proof.
  induction s as [|a s IH]; intros [|i] c H; simpl in *; try discriminate; try lia.
  apply IH in H. lia.
Qed.

Lemma get_None_ge (s : string) : ∀ i, String.get i s = None → String.length s ≤ i.
Proof.
  induction s as [|a s IH]; intros [|i] H; simpl in *; try discriminate; try lia.
  apply IH in H. lia.
Qed.

Lemma get_lt_Some (s : string) : ∀ i, i < String.length s → ∃ c, String.get i s = Some c.
Proof.
  intros i Hi. destruct (String.get i s) as [c|] eqn:E; [by exists c|].
  apply get_None_ge in E. lia.
Qed.

Lemma char_at_Some (s : string) i c : String.get i s = Some c → char_at s i = Ok c.
Proof. unfold char_at. by intros ->. Qed.

Lemma char_at_end (s : string) : char_at s (String.length s) = Ok NUL.
Proof.
  unfold char_at. destruct (String.get _ s) eqn:E.
  - apply get_Some_lt in E. lia.
  - by rewrite decide_True.
Qed.

Lemma char_at_beyond (s : string) i : String.length s < i → char_at s i = Fault OutOfBounds.
Proof.
  intros Hi. unfold char_at. destruct (String.get i s) eqn:E.
  - apply get_Some_lt in E. lia.
  - rewrite decide_False; [done | lia].
Qed.

Lemma length_app_string (s t : string) :
  String.length (s +:+ t) = String.length s + String.length t.
Proof. induction s as [|a s IH]; simpl; [done | by rewrite IH]. Qed.

Lemma length_string_take (s : string) : ∀ n, n ≤ String.length s → String.length (string_take n s) = n.
Proof.
  induction s as [|a s IH]; intros [|n] H; simpl in *; try lia.
  rewrite IH; lia.
Qed.

Lemma string_take_app (s t : string) : ∀ n, n ≤ String.length s → string_take n (s +:+ t) = string_take n s.
Proof.
  induction s as [|a s IH]; intros [|n] H; simpl in *; try done; try lia.
  rewrite IH; [done | lia].
Qed.

Lemma string_take_take (s : string) : ∀ n m, n ≤ m → string_take n (string_take m s) = string_take n s.
Proof.
  induction s as [|a s IH]; intros [|n] [|m] H; simpl in *; try done; try lia.
  rewrite IH; [done | lia].
Qed.

(** [strstr] finds its needle at offset zero exactly when the needle is a
    prefix of the haystack. *)
Lemma strstr_zero_prefix (hay needle : string) :
  strstr hay needle = Some 0 ↔ String.prefix needle hay = true.
Proof.
  destruct hay as [|a hay]; cbn [strstr];
    destruct (String.prefix needle _) eqn:E; try done.
  split; [|done]. destruct (strstr hay needle); simpl; congruence.
Qed.

(** ** The inner loop of do_var_replacement *)

Lemma try_var_unmatched i str var :
  String.prefix (var_name var) (string_drop i str) = false → try_var i str var = str.
Proof.
  intros H. unfold try_var. rewrite decide_False; [done|].
  rewrite strstr_zero_prefix. congruence.
Qed.

Lemma try_vars_unmatched syms i str : unmatched syms i str → try_vars syms i str = str.
Proof.
  unfold try_vars, unmatched. induction syms as [|v syms IH]; intros H; simpl; [done|].
  rewrite try_var_unmatched by (apply H; left).
  apply IH. intros var Hv. apply H. by right.
Qed.

Lemma try_var_keeps_prefix i str var :
  i ≤ String.length str →
  string_take i (try_var i str var) = string_take i str
  ∧ i ≤ String.length (try_var i str var).
Proof.
  intros Hi. unfold try_var. case_decide; [|done].
  unfold replace_at. split.
  - rewrite string_take_app by (rewrite length_string_take; lia).
    apply string_take_take. lia.
  - rewrite !length_app_string, length_string_take; lia.
Qed.

Lemma try_vars_keeps_prefix syms : ∀ i str,
  i ≤ String.length str →
  string_take i (try_vars syms i str) = string_take i str
  ∧ i ≤ String.length (try_vars syms i str).
Proof.
  unfold try_vars. induction syms as [|v syms IH]; intros i str Hi; simpl; [done|].
  destruct (try_var_keeps_prefix i str v Hi) as [E1 L1].
  destruct (IH i _ L1) as [E2 L2]. split; [congruence | done].
Qed.

(** ** The outer loop of do_var_replacement *)

Lemma var_loop_mono w : ∀ fuel fuel' i str r,
  var_loop fuel w i str = Some r → fuel ≤ fuel' → var_loop fuel' w i str = Some r.
Proof.
  induction fuel as [|fuel IH]; intros [|fuel'] i str r H Hle; simpl in *;
    try discriminate; try lia.
  destruct (char_at str i) as [c|f]; [|done].
  case_decide; [done|]. case_decide.
  - destruct (deref_config w); [|done]. eapply IH; [done | lia].
  - eapply IH; [done | lia].
Qed.

Lemma var_loop_marker_free w : ∀ fuel i str,
  i ≤ String.length str →
  (∀ k, i ≤ k → String.get k str ≠ Some marker) →
  String.length str - i < fuel →
  var_loop fuel w i str = Some (Ok str).
Proof.
  induction fuel as [|fuel IH]; intros i str Hi Hfree Hfuel; [lia|]. simpl.
  destruct (decide (i = String.length str)) as [->|Hne].
  - rewrite char_at_end. by rewrite decide_True.
  - destruct (get_lt_Some str i) as [c Hc]; [lia|].
    rewrite (char_at_Some _ _ _ Hc).
    case_decide; [done|]. rewrite decide_False.
    + apply IH; [lia | intros k Hk; apply Hfree; lia | lia].
    + intros ->. by apply (Hfree i).
Qed.

Lemma var_loop_unmatched w cfg : ∀ fuel i str,
  deref_config w = Ok cfg →
  i ≤ String.length str →
  (∀ k, i ≤ k → String.get k str = Some marker → unmatched (symbols cfg) k str) →
  String.length str - i < fuel →
  var_loop fuel w i str = Some (Ok str).
Proof.
  induction fuel as [|fuel IH]; intros i str Hw Hi Hun Hfuel; [lia|]. simpl.
  destruct (decide (i = String.length str)) as [->|Hne].
  - rewrite char_at_end. by rewrite decide_True.
  - destruct (get_lt_Some str i) as [c Hc]; [lia|].
    rewrite (char_at_Some _ _ _ Hc).
    case_decide; [done|]. case_decide as Hm.
    + rewrite Hw. subst c. rewrite try_vars_unmatched by by apply Hun.
      apply IH; [done | lia | intros k Hk; apply Hun; lia | lia].
    + apply IH; [done | lia | intros k Hk; apply Hun; lia | lia].
Qed.

Lemma var_loop_keeps_prefix w : ∀ fuel i str out,
  i ≤ String.length str →
  var_loop fuel w i str = Some (Ok out) →
  string_take i out = string_take i str.
Proof.
  induction fuel as [|fuel IH]; intros i str out Hi H; [done|]. simpl in H.
  destruct (char_at str i) as [c|f] eqn:Hc; [|done].
  case_decide; [congruence|].
  assert (i < String.length str) as Hlt.
  { destruct (decide (i = String.length str)) as [->|]; [|lia].
    rewrite char_at_end in Hc. congruence. }
  assert (∀ s : string, i ≤ String.length s →
            var_loop fuel w (S i) s = Some (Ok out) →
            string_take i out = string_take i s) as Hstep.
  { intros s Hs Hrun.
    destruct (decide (S i ≤ String.length s)) as [Hle|Hgt].
    - apply IH in Hrun; [|done].
      rewrite <- (string_take_take out i (S i)), Hrun by lia.
      apply string_take_take. lia.
    - destruct fuel; [done|]. simpl in Hrun.
      rewrite char_at_beyond in Hrun by lia. done. }
  case_decide.
  - destruct (deref_config w) as [cfg|]; [|done].
    destruct (try_vars_keeps_prefix (symbols cfg) i str Hi) as [E L].
    rewrite <- E. by apply Hstep.
  - apply Hstep; [lia | done].
Qed.

Lemma var_loop_null w : ∀ fuel i k str,
  config w = None →
  (∀ j, String.get j str ≠ Some NUL) →
  i ≤ k → String.get k str = Some marker →
  k - i < fuel →
  var_loop fuel w i str = Some (Fault NullDeref).
Proof.
  induction fuel as [|fuel IH]; intros i k str Hw Hnul Hik Hk Hfuel; [lia|]. simpl.
  pose proof (get_Some_lt _ _ _ Hk) as Hlen.
  destruct (get_lt_Some str i) as [c Hc]; [lia|].
  rewrite (char_at_Some _ _ _ Hc).
  rewrite decide_False by (intros ->; by apply (Hnul i)).
  case_decide as Hm.
  - unfold deref_config. by rewrite Hw.
  - assert (i ≠ k) by congruence.
    apply (IH (S i) k); [done | done | lia | done | lia].
Qed.

(** ** Strings that avoid a set of characters *)

Lemma avoids_spec bad (s : string) :
  avoids bad s = true → ∀ k c, String.get k s = Some c → c ∉ bad.
Proof.
  induction s as [|a s IH]; intros Hs [|k] c Hc; simpl in *; try done;
    case_decide; try done.
  - congruence.
  - by apply (IH Hs k).
Qed.

Lemma avoids_plain s : avoids [marker; NUL] s = true → plain s.
Proof.
  intros Hs k. split; intros Hk; apply (avoids_spec _ _ Hs) in Hk;
    apply Hk; set_solver.
Qed.

Lemma avoids_marker_free s : avoids [marker] s = true → marker_free s.
Proof.
  intros Hs k Hk. apply (avoids_spec _ _ Hs) in Hk. apply Hk. set_solver.
Qed.

Lemma avoids_cstring s : avoids [NUL] s = true → cstring s.
Proof.
  intros Hs k Hk. apply (avoids_spec _ _ Hs) in Hk. apply Hk. set_solver.
Qed.

Ltac run_monad :=
  repeat progress
    (unfold mbind, mret, M_bind, M_ret, modify_store, load_store, write_store,
       lift_result, deref_config, emit, sway_log, get_config, set_config,
       raise; simpl).

(** ** Running the primitives on a world with a live store *)

Lemma bind_Ok {A B : Type} (m : M A) (k : A → M B) w a w' :
  m w = Ok (a, w') → (m ≫= k) w = k a w'.
Proof. unfold mbind, M_bind. by intros ->. Qed.

Lemma bind_Fault {A B : Type} (m : M A) (k : A → M B) w f :
  m w = Fault f → (m ≫= k) w = Fault f.
Proof. unfold mbind, M_bind. by intros ->. Qed.

Lemma after_id w p c :
  config w = Some p → stores w !! p = Some c → after w p c [] = w.
Proof.
  destruct w as [st cf tr]; simpl. intros -> Hl. unfold after; simpl.
  by rewrite insert_id, app_nil_r.
Qed.

Lemma after_after w p c evs c' evs' :
  after (after w p c evs) p c' evs' = after w p c' (evs ++ evs').
Proof. unfold after; simpl. by rewrite insert_insert_eq, app_assoc. Qed.

Lemma config_after w p c evs : config (after w p c evs) = Some p.
Proof. done. Qed.

Lemma lookup_after w p c evs : stores (after w p c evs) !! p = Some c.
Proof. unfold after; simpl. apply lookup_insert_eq. Qed.

Lemma load_store_live w p c :
  config w = Some p → stores w !! p = Some c → load_store w = Ok (c, w).
Proof. intros Hp Hc. run_monad. by rewrite Hp, Hc. Qed.

Lemma write_store_live c' w p :
  config w = Some p → write_store c' w = Ok (tt, after w p c' []).
Proof. intros Hp. run_monad. unfold after. by rewrite Hp, app_nil_r. Qed.

Lemma modify_store_live f w p c :
  config w = Some p → stores w !! p = Some c →
  modify_store f w = Ok (tt, after w p (f c) []).
Proof.
  intros Hp Hc. unfold modify_store.
  rewrite (bind_Ok _ _ _ _ _ (load_store_live w p c Hp Hc)).
  by apply write_store_live.
Qed.

Lemma emit_live e w p c :
  config w = Some p → stores w !! p = Some c →
  emit e w = Ok (tt, after w p c [e]).
Proof.
  intros Hp Hc. unfold emit, after. by rewrite insert_id, Hp.
Qed.

Lemma sway_log_live lvl fmt arg w p c :
  config w = Some p → stores w !! p = Some c →
  sway_log lvl fmt arg w = Ok (tt, after w p c [EvLog lvl fmt arg]).
Proof. apply emit_live. Qed.

Section parse.
Context {collab : Collaborators} {os : OS}.

Lemma call_handle_command_live line w p c :
  config w = Some p → stores w !! p = Some c →
  call_handle_command line w
  = Ok ((handle_command line c).1,
        after w p (handle_command line c).2
          [EvHandleCommand line (handle_command line c).1]).
Proof.
  intros Hp Hc. unfold call_handle_command.
  rewrite (bind_Ok _ _ _ _ _ (load_store_live w p c Hp Hc)).
  destruct (handle_command line c) as [ok c']; simpl.
  rewrite (bind_Ok _ _ _ _ _ (write_store_live c' w p Hp)).
  erewrite bind_Ok by (eapply emit_live; [apply config_after | apply lookup_after]).
  by rewrite after_after.
Qed.

Lemma parse_line_step dm is_active raw s w p c :
  config w = Some p → stores w !! p = Some c →
  tokenizer_total →
  ∃ s' c' evs,
    parse_line dm is_active raw s w = Ok (s', after w p c' evs)
    ∧ line_step dm is_active (normalize raw) s c s' c' evs.
Proof.
  intros Hp Hc Htok. unfold parse_line. fold (normalize raw).
  set (line := normalize raw) in *.
  case_decide as Hnul.
  { exists s, c, []. rewrite after_id by done. split; [done | by constructor]. }
  case_decide as Hbrace.
  { exists s, (set_current_mode dm c), []. split; [|by constructor].
    by erewrite bind_Ok by by eapply modify_store_live. }
  assert (directive line) as Hdir by done.
  unfold dispatch.
  destruct (split_string line whitespace) as [|a args] eqn:Hsplit;
    [by destruct (Htok raw)|].
  assert (leading_token line = Some a) as Hlead
    by (unfold leading_token; by rewrite Hsplit).
  erewrite bind_Ok by reflexivity.
  destruct (find_handler a) as [h|] eqn:Hfind.
  2:{ exists s, c, [EvLog L_ERROR "Invalid command ``%s''" line].
      split; [|apply step_unknown; [done|];
               unfold handler_of; by rewrite Hlead].
      by erewrite bind_Ok by by eapply sway_log_live. }
  assert (handler_of line = Some h) as Hh
    by (unfold handler_of; rewrite Hlead; done).
  case_bool_decide as Hkey.
  { exists s, c, [EvLog L_ERROR "Invalid command during config ``%s''" line].
    split; [|by econstructor].
    by erewrite bind_Ok by by eapply sway_log_live. }
  destruct (bool_decide (config_type h = CMD_COMPOSITOR_READY) && negb is_active)
    eqn:Hdefer.
  { apply andb_prop in Hdefer as [Hready Hact].
    apply bool_decide_eq_true in Hready. apply negb_true_iff in Hact.
    exists s, (queue_cmd line c), [EvLog L_DEBUG "Deferring command ``%s''" line].
    split; [|by econstructor].
    erewrite bind_Ok by by eapply sway_log_live.
    erewrite bind_Ok
      by (eapply modify_store_live; [apply config_after | apply lookup_after]).
    by rewrite after_after. }
  assert (config_type h ≠ CMD_COMPOSITOR_READY ∨ is_active = true) as Hnow.
  { apply andb_false_iff in Hdefer as [Hready|Hact].
    - left. by apply bool_decide_eq_false in Hready.
    - right. by apply negb_false_iff in Hact. }
  erewrite bind_Ok by by eapply call_handle_command_live.
  destruct (handle_command line c) as [[|] c'] eqn:Hcall; simpl.
  { exists s, c', [EvHandleCommand line true].
    split; [done | by eapply step_handle_ok]. }
  exists false, (set_failed true c'),
    [EvHandleCommand line false;
     EvLog L_DEBUG "Config load failed for line ``%s''" line].
  split; [|by eapply step_handle_fail].
  erewrite bind_Ok
    by (eapply sway_log_live; [apply config_after | apply lookup_after]).
  erewrite bind_Ok
    by (eapply modify_store_live; [apply config_after | apply lookup_after]).
  by rewrite !after_after.
Qed.

Lemma parse_lines_run dm is_active : ∀ file s w p c,
  tokenizer_total →
  config w = Some p → stores w !! p = Some c →
  ∃ s' c' evs,
    parse_lines dm is_active file s w = Ok (s', after w p c' evs)
    ∧ lines_run dm is_active (normalize <$> file) s c s' c' evs.
Proof.
  induction file as [|raw rest IH]; intros s w p c Htok Hp Hc.
  { exists s, c, []. rewrite after_id by done. split; [done | constructor]. }
  destruct (parse_line_step dm is_active raw s w p c Hp Hc Htok)
    as (s1 & c1 & evs1 & Hrun1 & Hstep1).
  destruct (IH s1 (after w p c1 evs1) p c1 Htok
              (config_after _ _ _ _) (lookup_after _ _ _ _))
    as (s2 & c2 & evs2 & Hrun2 & Hstep2).
  exists s2, c2, (evs1 ++ evs2). split; [|by econstructor].
  simpl. rewrite (bind_Ok _ _ _ _ _ Hrun1), Hrun2. by rewrite after_after.
Qed.

Lemma read_config_prologue_run is_active w :
  let p := new_store_addr w in
  let dm := new_mode_addr w in
  read_config_prologue is_active w
  = Ok ((config w, dm),
        after w p (initial_store is_active dm)
          (if is_active
           then [EvLog L_DEBUG "Performing configuration file reload" ""]
           else [])).
Proof.
  intros p dm. unfold read_config_prologue.
  erewrite bind_Ok by reflexivity.
  erewrite bind_Ok by reflexivity. fold (new_store_addr w). fold p.
  erewrite bind_Ok by reflexivity.
  set (w0 := {| stores := stores w; config := Some p; trace := trace w |}).
  assert (config_defaults w0 = Ok (tt, after w p (default_config dm) [])) as Hdef.
  { unfold config_defaults. erewrite bind_Ok by reflexivity.
    by rewrite (write_store_live _ _ p). }
  rewrite (bind_Ok _ _ _ _ _ Hdef).
  erewrite bind_Ok
    by (eapply load_store_live; [apply config_after | apply lookup_after]).
  simpl current_mode. unfold initial_store. destruct is_active.
  - erewrite bind_Ok; [done|].
    erewrite bind_Ok
      by (eapply sway_log_live; [apply config_after | apply lookup_after]).
    erewrite bind_Ok
      by (eapply modify_store_live; [apply config_after | apply lookup_after]).
    erewrite modify_store_live by (apply config_after || apply lookup_after).
    by rewrite !after_after.
  - by erewrite bind_Ok by reflexivity.
Qed.

Lemma read_config_epilogue_run (is_active : bool) (old : option addr) (w : world) (p : addr) c :
  config w = Some p → stores w !! p = Some c →
  (∀ o : addr, old = Some o → o ≠ p ∧ is_Some (stores w !! o)) →
  let c' := if is_active then set_reloading false c else c in
  let evs := if is_active then [EvArrangeWindows] else [] in
  read_config_epilogue is_active old w
  = Ok (tt, {| stores := match old with
                         | Some o => delete o (<[p := c']> (stores w))
                         | None => <[p := c']> (stores w)
                         end;
               config := Some p;
               trace := trace w ++ evs |}).
Proof.
  intros Hp Hc Hold c' evs. unfold read_config_epilogue.
  assert ((if is_active
           then modify_store (set_reloading false);; emit EvArrangeWindows
           else mret ()) w = Ok (tt, after w p c' evs)) as Hfirst.
  { subst c' evs. destruct is_active.
    - erewrite bind_Ok by by eapply modify_store_live.
      erewrite emit_live by (apply config_after || apply lookup_after).
      by rewrite after_after.
    - by rewrite after_id. }
  rewrite (bind_Ok _ _ _ _ _ Hfirst).
  destruct old as [o|]; [|done].
  destruct (Hold o eq_refl) as [Hne [co Hco]].
  unfold free_config. simpl. rewrite lookup_insert_ne by done. by rewrite Hco.
Qed.

Lemma old_store_not_new w o :
  wf_world w → config w = Some o → o ≠ new_store_addr w.
Proof.
  intros Hwf Ho ->. apply Hwf, elem_of_dom in Ho.
  exact (is_fresh (dom (stores w)) Ho).
Qed.

(** What a call of [read_config] does, in one equation. *)
Lemma read_config_run file is_active w :
  tokenizer_total → wf_world w →
  let p := new_store_addr w in
  let dm := new_mode_addr w in
  ∃ s c evs,
    lines_run dm is_active (normalize <$> file) true
      (initial_store is_active dm) s c evs
    ∧ read_config file is_active w
      = Ok (s, {| stores :=
                    match config w with
                    | Some o =>
                        delete o (<[p := if is_active
                                         then set_reloading false c
                                         else c]> (stores w))
                    | None =>
                        <[p := if is_active then set_reloading false c
                               else c]> (stores w)
                    end;
                  config := Some p;
                  trace :=
                    trace w
                    ++ (if is_active
                        then [EvLog L_DEBUG
                                "Performing configuration file reload" ""]
                        else [])
                    ++ evs
                    ++ (if is_active then [EvArrangeWindows] else []) |}).
Proof.
  intros Htok Hwf p dm.
  pose proof (read_config_prologue_run is_active w) as Hpro.
  simpl in Hpro. fold p dm in Hpro.
  set (evs0 := if is_active
               then [EvLog L_DEBUG "Performing configuration file reload" ""]
               else []) in *.
  set (w1 := after w p (initial_store is_active dm) evs0) in *.
  destruct (parse_lines_run dm is_active file true w1 p
              (initial_store is_active dm) Htok
              (config_after _ _ _ _) (lookup_after _ _ _ _))
    as (s & c & evs & Hrun & Hsteps).
  exists s, c, evs. split; [done|].
  unfold read_config. rewrite (bind_Ok _ _ _ _ _ Hpro). simpl.
  rewrite (bind_Ok _ _ _ _ _ Hrun).
  erewrite bind_Ok.
  2:{ eapply read_config_epilogue_run;
        [apply config_after | apply lookup_after |].
      intros o Ho. pose proof (old_store_not_new w o Hwf Ho) as Hne.
      split; [done|]. subst w1. unfold after; simpl.
      rewrite !lookup_insert_ne by done. by apply Hwf. }
  unfold mret, M_ret. do 2 f_equal. subst w1. unfold after; simpl.
  rewrite !insert_insert_eq, <- !app_assoc. done.
Qed.
End parse.

(** ** The parse loop, line by line *)

Section parse_facts.
Context {collab : Collaborators} {os : OS}.

Lemma is_directive_true line : directive line → is_directive line = true.
Proof.
  intros [H1 H2]. unfold is_directive.
  by rewrite !bool_decide_eq_true_2.
Qed.

Lemma is_directive_false line : ¬ directive line → is_directive line = false.
Proof.
  intros Hn. unfold is_directive.
  destruct (decide (first_char line = NUL)) as [E|E].
  - by rewrite (bool_decide_eq_false_2 _ (λ H, H E)).
  - destruct (decide (first_char line = "}"%char)) as [E'|E'].
    + rewrite (bool_decide_eq_false_2 (first_char line ≠ "}"%char))
        by (intros Hc; by apply Hc).
      apply andb_false_r.
    + destruct Hn. by split.
Qed.

Lemma is_directive_spec line : is_directive line = true → directive line.
Proof.
  unfold is_directive. intros [H1 H2]%andb_prop.
  split; by eapply bool_decide_eq_true_1.
Qed.

Lemma not_directive_nul line : first_char line = NUL → ¬ directive line.
Proof. by intros E [H1 _]. Qed.

Lemma not_directive_brace line : first_char line = "}"%char → ¬ directive line.
Proof. by intros E [_ H2]. Qed.

(** A step calls [handle_command] exactly for the lines classified
    immediate. *)
Lemma line_step_handled dm is_active line s c s' c' evs :
  line_step dm is_active line s c s' c' evs →
  handled evs = if immediate is_active line then [line] else [].
Proof.
  unfold immediate.
  destruct 1 as [E|E|h Hd Hh Hk|h Hd Hh Hr Ha|h c' Hd Hh Hk Hr Hc
                |h c' Hd Hh Hk Hr Hc|Hd Hh]; simpl.
  - by rewrite is_directive_false by by apply not_directive_nul.
  - by rewrite is_directive_false by by apply not_directive_brace.
  - rewrite Hh, (bool_decide_eq_true_2 _ Hk). simpl. by rewrite andb_false_r.
  - rewrite Hh, Hr, Ha. simpl. by rewrite andb_false_r.
  - rewrite (is_directive_true _ Hd), Hh, (bool_decide_eq_false_2 _ Hk).
    simpl. destruct Hr as [Hr| ->].
    + by rewrite (bool_decide_eq_false_2 _ Hr).
    + by rewrite andb_false_r.
  - rewrite (is_directive_true _ Hd), Hh, (bool_decide_eq_false_2 _ Hk).
    simpl. destruct Hr as [Hr| ->].
    + by rewrite (bool_decide_eq_false_2 _ Hr).
    + by rewrite andb_false_r.
  - rewrite Hh. by rewrite andb_false_r.
Qed.

(** The local flag falls exactly when a handler reports failure. *)
Lemma line_step_success dm is_active line s c s' c' evs :
  line_step dm is_active line s c s' c' evs →
  (s' = s ∧ ¬ handler_failed evs) ∨ (s' = false ∧ handler_failed evs).
Proof.
  unfold handler_failed.
  destruct 1; try (left; split; [done|]; intros [l Hl];
                   repeat (apply elem_of_cons in Hl as [Hl|Hl]; [done|]);
                   by apply elem_of_nil in Hl).
  right. split; [done|]. eexists. left.
Qed.

Lemma line_step_queue dm is_active line s c s' c' evs :
  (∀ l c0, cmd_queue (handle_command l c0).2 = cmd_queue c0) →
  line_step dm is_active line s c s' c' evs →
  cmd_queue c'
  = cmd_queue c
    ++ (if requires_session line && negb is_active then [line] else []).
Proof.
  intros Hframe. unfold requires_session.
  destruct 1 as [E|E|h Hd Hh Hk|h Hd Hh Hr Ha|h c' Hd Hh Hk Hr Hc
                |h c' Hd Hh Hk Hr Hc|Hd Hh]; simpl.
  - rewrite is_directive_false by by apply not_directive_nul.
    by rewrite app_nil_r.
  - rewrite is_directive_false by by apply not_directive_brace.
    by rewrite app_nil_r.
  - rewrite Hh, Hk. simpl. by rewrite andb_false_r, app_nil_r.
  - by rewrite (is_directive_true _ Hd), Hh, Hr, Ha.
  - pose proof (Hframe line c) as Hq. rewrite Hc in Hq. simpl in Hq.
    rewrite Hq, Hh. destruct Hr as [Hr| ->].
    + rewrite (bool_decide_eq_false_2 _ Hr).
      by rewrite andb_false_r, app_nil_r.
    + by rewrite andb_false_r, app_nil_r.
  - pose proof (Hframe line c) as Hq. rewrite Hc in Hq. simpl in Hq.
    rewrite Hq, Hh. destruct Hr as [Hr| ->].
    + rewrite (bool_decide_eq_false_2 _ Hr).
      by rewrite andb_false_r, app_nil_r.
    + by rewrite andb_false_r, app_nil_r.
  - rewrite Hh. by rewrite andb_false_r, app_nil_r.
Qed.

Lemma line_step_failed dm is_active line s c s' c' evs :
  (∀ l c0, failed c0 = true → failed (handle_command l c0).2 = true) →
  line_step dm is_active line s c s' c' evs →
  (failed c = true → failed c' = true)
  ∧ (handler_failed evs → failed c' = true).
Proof.
  intros Hframe. unfold handler_failed.
  destruct 1 as [E|E|h Hd Hh Hk|h Hd Hh Hr Ha|h c' Hd Hh Hk Hr Hc
                |h c' Hd Hh Hk Hr Hc|Hd Hh]; simpl;
    (split; [try done|
             try (intros [l Hl];
                  repeat (apply elem_of_cons in Hl as [Hl|Hl]; [done|]);
                  by apply elem_of_nil in Hl)]).
  intros Hf. pose proof (Hframe line c Hf) as Hq. by rewrite Hc in Hq.
Qed.

Lemma line_step_mode_inv dm is_active line s c s' c' evs :
  (∀ l c0, mode_inv dm c0 → mode_inv dm (handle_command l c0).2) →
  line_step dm is_active line s c s' c' evs →
  mode_inv dm c → mode_inv dm c'.
Proof.
  intros Hframe.
  destruct 1 as [E|E|h Hd Hh Hk|h Hd Hh Hr Ha|h c' Hd Hh Hk Hr Hc
                |h c' Hd Hh Hk Hr Hc|Hd Hh]; try done.
  - intros [[m [Hm Hname]] Hcur]. split; [by exists m|]. simpl.
    apply list_elem_of_fmap. by exists (dm, m).
  - intros Hinv. pose proof (Hframe line c Hinv) as Hq. by rewrite Hc in Hq.
  - intros Hinv. pose proof (Hframe line c Hinv) as Hq. by rewrite Hc in Hq.
Qed.

(** ** The parse loop over a file *)

Lemma handled_app evs1 evs2 : handled (evs1 ++ evs2) = handled evs1 ++ handled evs2.
Proof. unfold handled. apply omap_app. Qed.

Lemma handler_failed_app evs1 evs2 :
  handler_failed (evs1 ++ evs2) ↔ handler_failed evs1 ∨ handler_failed evs2.
Proof.
  unfold handler_failed. split.
  - intros [l [H1|H1]%elem_of_app]; [left | right]; by exists l.
  - intros [[l H1]|[l H1]]; exists l; apply elem_of_app; auto.
Qed.

Lemma lines_run_handled dm is_active ls s c s' c' evs :
  lines_run dm is_active ls s c s' c' evs →
  handled evs = List.filter (immediate is_active) ls.
Proof.
  induction 1 as [|line ls s c s1 c1 evs1 s2 c2 evs2 Hstep Hrun IH]; [done|].
  rewrite handled_app, IH, (line_step_handled _ _ _ _ _ _ _ _ Hstep). simpl.
  by destruct (immediate is_active line).
Qed.

Lemma lines_run_success dm is_active ls s c s' c' evs :
  lines_run dm is_active ls s c s' c' evs →
  (handler_failed evs → s' = false)
  ∧ (¬ handler_failed evs → s' = s)
  ∧ (s = false → s' = false).
Proof.
  induction 1
    as [|line ls s c s1 c1 evs1 s2 c2 evs2 Hstep Hrun (IH1 & IH2 & IH3)].
  { split; [|done]. intros [l Hl]. by apply elem_of_nil in Hl. }
  rewrite handler_failed_app.
  destruct (line_step_success _ _ _ _ _ _ _ _ Hstep) as [[-> Hno]|[-> Hyes]].
  - split; [|split].
    + intros [?|Hf]; [done | by apply IH1].
    + intros Hn. apply IH2. tauto.
    + done.
  - rewrite IH3 by done. split; [done|]. split; [tauto | done].
Qed.

Lemma lines_run_queue dm is_active ls s c s' c' evs :
  (∀ l c0, cmd_queue (handle_command l c0).2 = cmd_queue c0) →
  lines_run dm is_active ls s c s' c' evs →
  cmd_queue c'
  = cmd_queue c
    ++ List.filter (λ l, requires_session l && negb is_active) ls.
Proof.
  intros Hframe.
  induction 1 as [|line ls s c s1 c1 evs1 s2 c2 evs2 Hstep Hrun IH].
  { by rewrite app_nil_r. }
  rewrite IH, (line_step_queue _ _ _ _ _ _ _ _ Hframe Hstep). simpl.
  destruct (requires_session line && negb is_active);
    by rewrite <- app_assoc.
Qed.

Lemma lines_run_failed dm is_active ls s c s' c' evs :
  (∀ l c0, failed c0 = true → failed (handle_command l c0).2 = true) →
  lines_run dm is_active ls s c s' c' evs →
  (failed c = true → failed c' = true)
  ∧ (handler_failed evs → failed c' = true).
Proof.
  intros Hframe.
  induction 1 as [|line ls s c s1 c1 evs1 s2 c2 evs2 Hstep Hrun [IH1 IH2]].
  { split; [done|]. intros [l Hl]. by apply elem_of_nil in Hl. }
  destruct (line_step_failed _ _ _ _ _ _ _ _ Hframe Hstep) as [H1 H2].
  split; [auto|]. rewrite handler_failed_app. intros [Hf|Hf]; auto.
Qed.

Lemma lines_run_mode_inv dm is_active ls s c s' c' evs :
  (∀ l c0, mode_inv dm c0 → mode_inv dm (handle_command l c0).2) →
  lines_run dm is_active ls s c s' c' evs →
  mode_inv dm c → mode_inv dm c'.
Proof.
  intros Hframe. induction 1; eauto using line_step_mode_inv.
Qed.
End parse_facts.

Section parse_states_facts.
Context {collab : Collaborators} {os : OS}.

(** Every world of the parse loop has the same live store address, a live
    store with any property that the steps preserve, and every other
    store untouched. *)
Lemma parse_states_live dm is_active (P : sway_config → Prop) :
  tokenizer_total →
  (∀ line s c s' c' evs,
     line_step dm is_active line s c s' c' evs → P c → P c') →
  ∀ file s w p c,
    config w = Some p → stores w !! p = Some c → P c →
    ∀ w', w' ∈ parse_states dm is_active file s w →
      config w' = Some p
      ∧ (∃ c', stores w' !! p = Some c' ∧ P c')
      ∧ (∀ q, q ≠ p → stores w' !! q = stores w !! q).
Proof.
  intros Htok Hpres.
  induction file as [|raw rest IH]; intros s w p c Hp Hc HP w' Hin; simpl in Hin.
  { apply list_elem_of_singleton in Hin as ->. eauto. }
  apply elem_of_cons in Hin as [->|Hin]; [eauto|].
  destruct (parse_line_step dm is_active raw s w p c Hp Hc Htok)
    as (s1 & c1 & evs1 & Hrun1 & Hstep1).
  rewrite Hrun1 in Hin.
  destruct (IH s1 (after w p c1 evs1) p c1 (config_after _ _ _ _)
              (lookup_after _ _ _ _) (Hpres _ _ _ _ _ _ Hstep1 HP) w' Hin)
    as (Hp' & Hc' & Hframe).
  split; [done|]. split; [done|].
  intros q Hq. rewrite (Hframe q Hq). unfold after; simpl.
  by rewrite lookup_insert_ne.
Qed.

(** The last world of the loop is the one that [parse_lines] returns. *)
Lemma parse_states_last dm is_active : ∀ file s w s' w',
  parse_lines dm is_active file s w = Ok (s', w') →
  last (parse_states dm is_active file s w) = Some w'.
Proof.
  induction file as [|raw rest IH]; intros s w s' w' Hrun; simpl in *.
  { unfold mret, M_ret in Hrun. by simplify_eq. }
  unfold mbind, M_bind in Hrun.
  destruct (parse_line dm is_active raw s w) as [[s1 w1]|]; [|done].
  apply IH in Hrun. destruct rest; simpl in *; done.
Qed.
End parse_states_facts.

(** ** The concrete collaborators tokenise every directive *)

Lemma split_from_pending delims : ∀ s cur,
  cur ≠ EmptyString → Demo.split_from delims cur s ≠ [].
Proof.
  induction s as [|a s IH]; intros cur Hcur; simpl.
  - by rewrite decide_False.
  - destruct (Demo.is_delim delims a).
    + by rewrite decide_False.
    + apply IH. by destruct cur.
Qed.

Lemma skip_spaces_head raw :
  first_char (Demo.skip_spaces raw) ≠ " "%char.
Proof.
  induction raw as [|a raw IH]; simpl; [done|].
  case_decide; [done|]. done.
Qed.

Lemma demo_tokenizer_total : tokenizer_total (collab := Demo.collaborators).
Proof.
  intros raw [Hnul Hbrace]. unfold normalize in *. simpl in *.
  pose proof (skip_spaces_head raw) as Hsp.
  destruct (Demo.skip_spaces raw) as [|a s]; simpl in *; [done|].
  destruct (decide (a = "#"%char)) as [->|Hhash]; simpl in *; [done|].
  rewrite bool_decide_eq_false_2 by congruence. simpl.
  by apply split_from_pending.
Qed.

(** * The claims *)

(** ** Reload: when the new store becomes the live one *)

(** C1, as the specification words it, fails: during a reload of the sample
    file from a world whose live store sits at address 1, the new store at
    address 2 is the global [config] at every one of the ten evaluations of
    the loop test, the first of them before any line is parsed, while the
    old store is still allocated. *)
Lemma C1_shadow_store_is_live_before_the_parse :
  match read_config_prologue true (Demo.world_with []) with
  | Ok ((old_config, default_mode), w1) =>
      old_config = Some 1%positive
      ∧ new_store_addr (Demo.world_with []) = 2%positive
      ∧ forallb (λ w', bool_decide (config w' = Some 2%positive)
                       && bool_decide (is_Some (stores w' !! 1%positive)))
          (parse_states (collab := Demo.collaborators)
             default_mode true Demo.config_file true w1) = true
      ∧ length (parse_states (collab := Demo.collaborators)
                  default_mode true Demo.config_file true w1) = 10
  | Fault _ => False
  end.
Proof. vm_compute. done. Qed.

(** C1, amended: [read_config] makes the newly allocated store the global
    [config] before the first line is parsed; the loop test is always
    evaluated with the new store live and the previous store allocated and
    unchanged; the previous store is freed after the last line, and the new
    store stays the live one. *)
Theorem C1_new_store_is_live_during_the_parse {collab : Collaborators} {os : OS}
    (file : list string) (is_active : bool) (w : world)
    (old : addr) (c_old : sway_config) :
  tokenizer_total →
  config w = Some old →
  stores w !! old = Some c_old →
  let new := new_store_addr w in
  let dm := new_mode_addr w in
  new ≠ old
  ∧ ∃ w1,
      read_config_prologue is_active w = Ok ((Some old, dm), w1)
      ∧ (∀ w', w' ∈ parse_states dm is_active file true w1 →
               config w' = Some new ∧ stores w' !! old = Some c_old)
      ∧ ∃ s w2 w',
          parse_lines dm is_active file true w1 = Ok (s, w2)
          ∧ last (parse_states dm is_active file true w1) = Some w2
          ∧ read_config_epilogue is_active (Some old) w2 = Ok (tt, w')
          ∧ read_config file is_active w = Ok (s, w')
          ∧ config w' = Some new
          ∧ stores w' !! old = None.
Proof.
  intros Htok Hold Hc new dm.
  assert (wf_world w) as Hwf by (intros o Ho; rewrite Hold in Ho; by simplify_eq).
  assert (new ≠ old) as Hne by (symmetry; by apply old_store_not_new).
  split; [done|].
  pose proof (read_config_prologue_run is_active w) as Hpro.
  simpl in Hpro. fold new dm in Hpro. rewrite Hold in Hpro.
  eexists. split; [exact Hpro|].
  match type of Hpro with _ = Ok (_, ?w) => set (w1 := w) in * end.
  split.
  - intros w' Hin.
    destruct (parse_states_live dm is_active (λ _, True) Htok
                (λ _ _ _ _ _ _ _ _, I) file true w1 new _
                (config_after _ _ _ _) (lookup_after _ _ _ _) I w' Hin)
      as (Hp' & _ & Hframe).
    split; [done|]. rewrite (Hframe old) by done.
    unfold w1, after; simpl. by rewrite lookup_insert_ne.
  - destruct (parse_lines_run dm is_active file true w1 new _ Htok
                (config_after _ _ _ _) (lookup_after _ _ _ _))
      as (s & c & evs & Hrun & _).
    pose proof (read_config_epilogue_run is_active (Some old)
                  (after w1 new c evs) new c
                  (config_after _ _ _ _) (lookup_after _ _ _ _)) as Hepi.
    simpl in Hepi.
    eexists s, _, _. split; [exact Hrun|].
    split; [by eapply parse_states_last|].
    split.
    { apply Hepi. intros o Ho. simplify_eq. split; [done|].
      unfold w1, after; simpl. rewrite !lookup_insert_ne by done. by eexists. }
    split.
    { unfold read_config. rewrite (bind_Ok _ _ _ _ _ Hpro). simpl.
      rewrite (bind_Ok _ _ _ _ _ Hrun).
      erewrite bind_Ok; [done|].
      apply Hepi. intros o Ho. simplify_eq. split; [done|].
      unfold w1, after; simpl. rewrite !lookup_insert_ne by done. by eexists. }
    split; [done|]. simpl. apply lookup_delete_eq.
Qed.


Lemma demo_world_live :
  config (Demo.world_with []) = Some 1%positive
  ∧ stores (Demo.world_with []) !! 1%positive = Some (Demo.store_with []).
Proof. split; vm_compute; reflexivity. Qed.

Lemma C1_new_store_is_live_during_the_parse_witness :
  ∃ w1,
    read_config_prologue true (Demo.world_with [])
    = Ok ((Some 1%positive, new_mode_addr (Demo.world_with [])), w1)
    ∧ ∃ s w2 w',
        parse_lines (collab := Demo.collaborators)
          (new_mode_addr (Demo.world_with [])) true Demo.config_file true w1
        = Ok (s, w2)
        ∧ read_config (collab := Demo.collaborators) Demo.config_file true
            (Demo.world_with []) = Ok (s, w')
        ∧ config w' = Some (new_store_addr (Demo.world_with []))
        ∧ stores w' !! 1%positive = None.
Proof.
  pose proof (C1_new_store_is_live_during_the_parse
              (collab := Demo.collaborators) (os := Demo.os_i3)
              Demo.config_file true (Demo.world_with []) 1%positive
              (Demo.store_with []) demo_tokenizer_total
              (proj1 demo_world_live) (proj2 demo_world_live)) as H.
  destruct H
    as (_ & w1 & Hpro & _ & s & w2 & w' & Hrun & _ & _ & Hread & Hcfg & Hold).
  exists w1. split; [exact Hpro|].
  exists s, w2, w'. split; [exact Hrun|]. split; [exact Hread|].
  split; [exact Hcfg | exact Hold].
Defined.

(** ** Deferred commands *)

Section classification.
Context {collab : Collaborators} {os : OS}.

Lemma requires_session_spec line :
  requires_session line = true →
  directive line
  ∧ ∃ h, handler_of line = Some h ∧ config_type h = CMD_COMPOSITOR_READY.
Proof.
  unfold requires_session. intros [Hd Hh]%andb_prop.
  split; [by apply is_directive_spec|].
  destruct (handler_of line) as [h|]; [|done].
  exists h. split; [done|]. by eapply bool_decide_eq_true_1.
Qed.

Lemma keybind_only_spec line :
  keybind_only line = true →
  directive line ∧ ∃ h, handler_of line = Some h ∧ config_type h = CMD_KEYBIND.
Proof.
  unfold keybind_only. intros [Hd Hh]%andb_prop.
  split; [by apply is_directive_spec|].
  destruct (handler_of line) as [h|]; [|done].
  exists h. split; [done|]. by eapply bool_decide_eq_true_1.
Qed.

Lemma unknown_command_spec line :
  unknown_command line = true → directive line ∧ handler_of line = None.
Proof.
  unfold unknown_command. intros [Hd Hh]%andb_prop.
  split; [by apply is_directive_spec|].
  by destruct (handler_of line).
Qed.

Lemma immediate_not_deferred line :
  requires_session line = true → immediate false line = false.
Proof.
  intros (Hd & h & Hh & Hr)%requires_session_spec.
  unfold immediate. rewrite Hh, Hr. simpl. by rewrite andb_false_r.
Qed.

(** What one iteration does to a line that is deferred. *)
Lemma parse_line_deferred dm raw s w p c :
  tokenizer_total →
  config w = Some p → stores w !! p = Some c →
  requires_session (normalize raw) = true →
  parse_line dm false raw s w
  = Ok (s, after w p (queue_cmd (normalize raw) c)
             [EvLog L_DEBUG "Deferring command ``%s''" (normalize raw)]).
Proof.
  intros Htok Hp Hc (Hd & h & Hh & Hr)%requires_session_spec.
  destruct (parse_line_step dm false raw s w p c Hp Hc Htok)
    as (s' & c' & evs & Hrun & Hstep).
  rewrite Hrun.
  destruct Hstep as [E|E|h' Hd' Hh' Hk|h' Hd' Hh' Hr' Ha|h' c' Hd' Hh' Hk Hr' Hc'
                    |h' c' Hd' Hh' Hk Hr' Hc'|Hd' Hh'];
    try done; try (by destruct Hd); try congruence.
  - destruct Hr' as [Hr'|?]; [|done]. congruence.
  - destruct Hr' as [Hr'|?]; [|done]. congruence.
Qed.

(** What one iteration does to a line that is only logged. *)
Lemma parse_line_rejected dm is_active raw s w p c :
  tokenizer_total →
  config w = Some p → stores w !! p = Some c →
  unknown_command (normalize raw) = true
  ∨ keybind_only (normalize raw) = true →
  ∃ fmt,
    parse_line dm is_active raw s w
    = Ok (s, {| stores := stores w; config := config w;
                trace := trace w ++ [EvLog L_ERROR fmt (normalize raw)] |}).
Proof.
  intros Htok Hp Hc Hclass.
  destruct (parse_line_step dm is_active raw s w p c Hp Hc Htok)
    as (s' & c' & evs & Hrun & Hstep).
  rewrite Hrun.
  assert (∀ evs0, after w p c evs0
                  = {| stores := stores w; config := config w;
                       trace := trace w ++ evs0 |}) as Hsame.
  { intros evs0. unfold after. by rewrite insert_id, Hp. }
  destruct Hclass as [[Hd Hh]%unknown_command_spec
                     |(Hd & h & Hh & Hk)%keybind_only_spec];
    destruct Hstep as [E|E|h' Hd' Hh' Hk'|h' Hd' Hh' Hr' Ha|h' c' Hd' Hh' Hk' Hr' Hc'
                      |h' c' Hd' Hh' Hk' Hr' Hc'|Hd' Hh'];
    try (by destruct Hd); try congruence;
    eexists; by rewrite Hsame.
Qed.

Lemma parse_line_close dm is_active raw s w p c :
  config w = Some p → stores w !! p = Some c →
  first_char (normalize raw) = "}"%char →
  parse_line dm is_active raw s w
  = Ok (s, after w p (set_current_mode dm c) []).
Proof.
  intros Hp Hc Hbrace. unfold parse_line. fold (normalize raw).
  rewrite decide_False by (rewrite Hbrace; done).
  rewrite decide_True by done.
  by erewrite bind_Ok by by eapply modify_store_live.
Qed.
End classification.

(** C4: while the session is not active, a line whose handler is classified
    requires-running-session is copied to the end of [cmd_queue] and logged,
    and nothing else happens; after a whole pass the queue holds exactly the
    lines so classified, in file order, and [handle_command] was called for
    none of them.  The handlers are assumed to leave [cmd_queue] alone. *)
Theorem C4_deferred_commands_are_queued_in_order
    {collab : Collaborators} {os : OS} :
  tokenizer_total →
  (∀ line c, cmd_queue (handle_command line c).2 = cmd_queue c) →
  (∀ dm raw s w p c,
     config w = Some p → stores w !! p = Some c →
     requires_session (normalize raw) = true →
     parse_line dm false raw s w
     = Ok (s, after w p (queue_cmd (normalize raw) c)
                [EvLog L_DEBUG "Deferring command ``%s''" (normalize raw)]))
  ∧ (∀ file w,
       wf_world w →
       ∃ s w' c evs,
         read_config file false w = Ok (s, w')
         ∧ deref_config w' = Ok c
         ∧ trace w' = trace w ++ evs
         ∧ cmd_queue c = List.filter requires_session (normalize <$> file)
         ∧ ∀ line, requires_session line = true → line ∉ handled evs).
Proof.
  intros Htok Hframe. split.
  { intros. by apply parse_line_deferred. }
  intros file w Hwf.
  destruct (read_config_run file false w Htok Hwf)
    as (s & c & evs & Hrun & Hread).
  simpl in Hread. eexists s, _, c, evs. split; [exact Hread|].
  split.
  { unfold deref_config; simpl.
    destruct (config w) as [o|] eqn:Ho.
    - rewrite lookup_delete_ne by by apply old_store_not_new.
      by rewrite lookup_insert_eq.
    - by rewrite lookup_insert_eq. }
  split; [simpl; by rewrite app_nil_r|].
  split.
  - rewrite (lines_run_queue _ _ _ _ _ _ _ _ Hframe Hrun). simpl.
    apply filter_ext. intros l. apply andb_true_r.
  - intros line Hreq Hin.
    rewrite (lines_run_handled _ _ _ _ _ _ _ _ Hrun) in Hin.
    apply list_elem_of_In, filter_In in Hin as [_ Himm].
    by rewrite immediate_not_deferred in Himm.
Qed.

Lemma C4_deferred_commands_are_queued_in_order_witness :
  ∃ s w' c evs,
    read_config (collab := Demo.collaborators) Demo.config_file false
      Demo.world_empty = Ok (s, w')
    ∧ deref_config w' = Ok c
    ∧ trace w' = trace Demo.world_empty ++ evs
    ∧ cmd_queue c = ["exec term"; "exec bar"]
    ∧ ∀ line, requires_session (collab := Demo.collaborators) line = true →
              line ∉ handled evs.
Proof.
  destruct (C4_deferred_commands_are_queued_in_order
              (collab := Demo.collaborators) (os := Demo.os_i3)
              demo_tokenizer_total (λ _ _, eq_refl)) as [_ Hpass].
  destruct (Hpass Demo.config_file Demo.world_empty) as (s & w' & c & evs & H).
  { intros old Hold. discriminate Hold. }
  exists s, w', c, evs. exact H.
Defined.

(** ** Failures during the parse *)

Section pass_facts.
Context {collab : Collaborators} {os : OS}.

Lemma handled_of_pass (is_active : bool) evs :
  handled
    ((if is_active
      then [EvLog L_DEBUG "Performing configuration file reload" ""]
      else [])
     ++ evs ++ (if is_active then [EvArrangeWindows] else []))
  = handled evs.
Proof.
  rewrite !handled_app. destruct is_active; simpl; by rewrite app_nil_r.
Qed.

Lemma handler_failed_of_pass (is_active : bool) evs :
  handler_failed
    ((if is_active
      then [EvLog L_DEBUG "Performing configuration file reload" ""]
      else [])
     ++ evs ++ (if is_active then [EvArrangeWindows] else []))
  ↔ handler_failed evs.
Proof.
  rewrite !handler_failed_app. unfold handler_failed.
  split; [|tauto].
  intros [[l Hl]|[?|[l Hl]]]; [|done|]; destruct is_active;
    repeat (apply elem_of_cons in Hl as [Hl|Hl]; [done|]);
    by apply elem_of_nil in Hl.
Qed.

(** The live store of the world that [read_config] returns. *)
Lemma read_config_final_store (w : world) (c : sway_config)
    (tr : list event) :
  wf_world w →
  let w' := {| stores := match config w with
                         | Some o => delete o (<[new_store_addr w := c]> (stores w))
                         | None => <[new_store_addr w := c]> (stores w)
                         end;
               config := Some (new_store_addr w);
               trace := tr |} in
  stores w' !! new_store_addr w = Some c
  ∧ ∀ old, config w = Some old →
      old ≠ new_store_addr w ∧ stores w' !! old = None.
Proof.
  intros Hwf. simpl. destruct (config w) as [o|] eqn:Ho.
  - pose proof (old_store_not_new w o Hwf Ho) as Hne. split.
    + rewrite lookup_delete_ne by done. apply lookup_insert_eq.
    + intros old [= <-]. split; [done | apply lookup_delete_eq].
  - split; [apply lookup_insert_eq | done].
Qed.
End pass_facts.

(** C5: a pass over any file runs to its end.  [handle_command] is called
    for every line classified for immediate execution, in file order,
    whatever the earlier calls returned; the result is false exactly when
    one of these calls reported failure, and then the new store has
    [failed] set; the new store is the live one afterwards and the previous
    one is freed, whatever the result.  A line with an unknown leading token
    or a keybinding-only handler adds one error line to the log and changes
    neither a store nor the flag.  The handlers are assumed never to clear
    [failed]. *)
Theorem C5_parse_errors_are_aggregated {collab : Collaborators} {os : OS} :
  tokenizer_total →
  (∀ line c, failed c = true → failed (handle_command line c).2 = true) →
  (∀ file is_active w,
     wf_world w →
     ∃ s w' c evs,
       read_config file is_active w = Ok (s, w')
       ∧ trace w' = trace w ++ evs
       ∧ config w' = Some (new_store_addr w)
       ∧ stores w' !! new_store_addr w = Some c
       ∧ (∀ old, config w = Some old →
                 old ≠ new_store_addr w ∧ stores w' !! old = None)
       ∧ handled evs = List.filter (immediate is_active) (normalize <$> file)
       ∧ (handler_failed evs → s = false ∧ failed c = true)
       ∧ (¬ handler_failed evs → s = true))
  ∧ (∀ dm is_active raw s w p c,
       config w = Some p → stores w !! p = Some c →
       unknown_command (normalize raw) = true
       ∨ keybind_only (normalize raw) = true →
       ∃ fmt,
         parse_line dm is_active raw s w
         = Ok (s, {| stores := stores w; config := config w;
                     trace := trace w ++ [EvLog L_ERROR fmt (normalize raw)] |})).
Proof.
  intros Htok Hframe. split.
  2:{ intros dm is_active raw s w p c Hp Hc Hclass.
      by apply (parse_line_rejected dm is_active raw s w p c). }
  intros file is_active w Hwf.
  destruct (read_config_run file is_active w Htok Hwf)
    as (s & c & evs & Hrun & Hread).
  simpl in Hread.
  eexists s, _, _, _. split; [exact Hread|].
  split; [done|]. split; [done|].
  match type of Hread with
  | _ = Ok (_, {| stores := _; config := _; trace := ?tr |}) =>
      destruct (read_config_final_store w
                  (if is_active then set_reloading false c else c) tr Hwf)
        as [Hnew Hold]
  end.
  split; [exact Hnew|]. split; [exact Hold|].
  rewrite handled_of_pass, handler_failed_of_pass.
  destruct (lines_run_success _ _ _ _ _ _ _ _ Hrun) as (Hs1 & Hs2 & _).
  destruct (lines_run_failed _ _ _ _ _ _ _ _ Hframe Hrun) as (_ & Hf).
  split; [by eapply lines_run_handled|].
  split; [|done].
  intros Hfail. split; [by apply Hs1|].
  destruct is_active; simpl; by apply Hf.
Qed.

Lemma C5_parse_errors_are_aggregated_witness :
  ∃ w' c evs,
    read_config (collab := Demo.collaborators) Demo.config_file true
      (Demo.world_with []) = Ok (false, w')
    ∧ trace w' = trace (Demo.world_with []) ++ evs
    ∧ config w' = Some (new_store_addr (Demo.world_with []))
    ∧ stores w' !! new_store_addr (Demo.world_with []) = Some c
    ∧ stores w' !! 1%positive = None
    ∧ handled evs = ["set $mod Mod4"; "exec term"; "gaps 4"; "exec bar"]
    ∧ failed c = true.
Proof.
  destruct (C5_parse_errors_are_aggregated
              (collab := Demo.collaborators) (os := Demo.os_i3)
              demo_tokenizer_total (λ _ _ H, H)) as [Hpass _].
  destruct (Hpass Demo.config_file true (Demo.world_with []))
    as (s & w' & c & evs & Hread & Htr & Hcfg & Hnew & Hold & Hcalls & Hfail & _).
  { intros old [= <-]. exists (Demo.store_with []).
    exact (proj2 demo_world_live). }
  assert (handler_failed evs) as Hf.
  { exists "exec term".
    pose proof Hread as Hcomp. vm_compute in Hcomp.
    injection Hcomp as _ Hw'. rewrite <- Hw' in Htr. simpl in Htr.
    rewrite <- Htr. do 2 right. left. }
  destruct (Hfail Hf) as [-> Hfailed].
  exists w', c, evs. split; [exact Hread|]. split; [exact Htr|].
  split; [exact Hcfg|]. split; [exact Hnew|].
  split; [exact (proj2 (Hold 1%positive (proj1 demo_world_live)))|].
  split; [exact Hcalls | exact Hfailed].
Defined.

(** ** The default mode *)

Lemma initial_store_mode_inv is_active dm : mode_inv dm (initial_store is_active dm).
Proof.
  unfold mode_inv, initial_store. destruct is_active; simpl.
  all: split; [eexists; split; [apply list_elem_of_singleton; reflexivity | done]
              | apply list_elem_of_singleton; reflexivity].
Qed.

Lemma set_reloading_mode_inv dm b c : mode_inv dm c → mode_inv dm (set_reloading b c).
Proof. done. Qed.

(** C6: the store that [read_config] builds has, whenever the loop test is
    evaluated and after [read_config] returned, a mode named "default" at
    the address that [config_defaults] allocated, and a current mode among
    its modes; a line that starts with a closing brace writes the address
    of the default mode to [current_mode] of the live store and changes no
    other field, no other store, not the trace and not the flag.  The
    handlers are assumed to keep the default mode and a valid current
    mode. *)
Theorem C6_default_mode_is_kept {collab : Collaborators} {os : OS} :
  tokenizer_total →
  (∀ dm line c, mode_inv dm c → mode_inv dm (handle_command line c).2) →
  (∀ file is_active w,
     wf_world w →
     let dm := new_mode_addr w in
     ∃ w1,
       read_config_prologue is_active w = Ok ((config w, dm), w1)
       ∧ (∀ w', w' ∈ parse_states dm is_active file true w1 →
                ∃ c, deref_config w' = Ok c ∧ mode_inv dm c)
       ∧ ∃ s w' c,
           read_config file is_active w = Ok (s, w')
           ∧ deref_config w' = Ok c ∧ mode_inv dm c)
  ∧ (∀ dm is_active raw s w p c,
       config w = Some p → stores w !! p = Some c →
       first_char (normalize raw) = "}"%char →
       parse_line dm is_active raw s w
       = Ok (s,
             {| stores :=
                  <[p := {| symbols := symbols c;
                            modes := modes c;
                            workspace_outputs := workspace_outputs c;
                            output_configs := output_configs c;
                            cmd_queue := cmd_queue c;
                            current_mode := dm;
                            floating_mod := floating_mod c;
                            default_layout := default_layout c;
                            default_orientation := default_orientation c;
                            focus_follows_mouse := focus_follows_mouse c;
                            mouse_warping := mouse_warping c;
                            reloading := reloading c;
                            active := active c;
                            failed := failed c;
                            auto_back_and_forth := auto_back_and_forth c;
                            gaps_inner := gaps_inner c;
                            gaps_outer := gaps_outer c |}]> (stores w);
                config := config w;
                trace := trace w |})).
Proof.
  intros Htok Hframe. split.
  2:{ intros dm is_active raw s w p c Hp Hc Hbrace.
      rewrite (parse_line_close dm is_active raw s w p c) by done.
      unfold after, set_current_mode. by rewrite Hp, app_nil_r. }
  intros file is_active w Hwf dm.
  pose proof (read_config_prologue_run is_active w) as Hpro.
  simpl in Hpro. fold dm in Hpro.
  eexists. split; [exact Hpro|]. split.
  - intros w' Hin.
    destruct (parse_states_live dm is_active (mode_inv dm) Htok
                (λ line s c s' c' evs Hstep,
                   line_step_mode_inv dm is_active line s c s' c' evs
                     (Hframe dm) Hstep)
                file true _ (new_store_addr w) _
                (config_after _ _ _ _) (lookup_after _ _ _ _)
                (initial_store_mode_inv is_active dm) w' Hin)
      as (Hp' & (c' & Hc' & Hinv) & _).
    exists c'. split; [|done]. unfold deref_config. by rewrite Hp', Hc'.
  - destruct (read_config_run file is_active w Htok Hwf)
      as (s & c & evs & Hrun & Hread).
    simpl in Hread. fold dm in Hrun.
    pose proof (lines_run_mode_inv _ _ _ _ _ _ _ _ (Hframe dm) Hrun
                  (initial_store_mode_inv is_active dm)) as Hinv.
    match type of Hread with
    | _ = Ok (_, {| stores := _; config := _; trace := ?tr |}) =>
        destruct (read_config_final_store w
                    (if is_active then set_reloading false c else c) tr Hwf)
          as [Hnew _]
    end.
    eexists s, _, _. split; [exact Hread|]. split.
    + unfold deref_config. simpl config. cbv iota beta. by rewrite Hnew.
    + by destruct is_active.
Qed.

Lemma C6_default_mode_is_kept_witness :
  (∃ s w' c,
     read_config (collab := Demo.collaborators) Demo.config_file false
       Demo.world_empty = Ok (s, w')
     ∧ deref_config w' = Ok c
     ∧ mode_inv (new_mode_addr Demo.world_empty) c)
  ∧ ∃ w' c,
      parse_line (collab := Demo.collaborators) 2%positive false "  } # end"
        true demo_world_in_mode = Ok (true, w')
      ∧ current_mode demo_store_in_mode = 7%positive
      ∧ deref_config w' = Ok c
      ∧ current_mode c = 2%positive
      ∧ modes c = modes demo_store_in_mode
      ∧ cmd_queue c = ["exec term"]
      ∧ trace w' = [].
Proof.
  destruct (C6_default_mode_is_kept
              (collab := Demo.collaborators) (os := Demo.os_i3)
              demo_tokenizer_total (λ _ _ _ H, H)) as [Hpass Hclose].
  split.
  - destruct (Hpass Demo.config_file false Demo.world_empty)
      as (w1 & _ & _ & H).
    { intros old Hold. discriminate Hold. }
    exact H.
  - eexists _, _. split.
    + apply (Hclose 2%positive false "  } # end" true demo_world_in_mode
               1%positive demo_store_in_mode);
        [reflexivity | vm_compute; reflexivity | reflexivity].
    + split; [reflexivity|]. split; [vm_compute; reflexivity|].
      repeat split.
Defined.

(** ** load_config *)

(** C7: when no path is given and [get_config_path] finds none, and when
    the file at the path given or found cannot be opened, [load_config]
    returns false, allocates and frees no store, leaves the global [config]
    as it was, and has called nothing but the logger, [input_init] and the
    path search. *)
Theorem C7_load_config_fails_without_a_file {collab : Collaborators} {os : OS}
    (file : option string) (w : world) :
  (∀ tr,
     file = None → get_config_path = Ok (None, tr) →
     load_config file w
     = Ok (false,
           {| stores := stores w; config := config w;
              trace := trace w
                       ++ [EvLog L_INFO "Loading config" ""; EvInputInit]
                       ++ tr
                       ++ [EvLog L_ERROR "Unable to find a config file!" ""] |}))
  ∧ (∀ path tr,
       (file = Some path ∧ tr = [])
       ∨ (file = None ∧ get_config_path = Ok (Some path, tr)) →
       fopen_r path = None →
       load_config file w
       = Ok (false,
             {| stores := stores w; config := config w;
                trace := trace w
                         ++ [EvLog L_INFO "Loading config" ""; EvInputInit]
                         ++ tr
                         ++ [EvStderr "Unable to open %s for reading" path] |})).
Proof.
  split.
  - intros tr -> Hpath. unfold load_config, call_get_config_path.
    run_monad. rewrite Hpath. simpl. by rewrite <- !app_assoc.
  - intros path tr [[-> ->]|[-> Hpath]] Hopen;
      unfold load_config, call_get_config_path; run_monad.
    + rewrite Hopen. run_monad. by rewrite <- !app_assoc.
    + rewrite Hpath. simpl. rewrite Hopen. simpl. by rewrite <- !app_assoc.
Qed.

Lemma C7_load_config_fails_without_a_file_witness :
  (∃ w', load_config (collab := Demo.collaborators) (os := Demo.os_bare) None
           (Demo.world_with []) = Ok (false, w')
         ∧ stores w' = stores (Demo.world_with [])
         ∧ config w' = config (Demo.world_with []))
  ∧ (∃ w', load_config (collab := Demo.collaborators) (os := Demo.os_i3)
             (Some "/tmp/missing") (Demo.world_with []) = Ok (false, w')
           ∧ stores w' = stores (Demo.world_with [])
           ∧ config w' = config (Demo.world_with [])).
Proof.
  split.
  - destruct (C7_load_config_fails_without_a_file
                (collab := Demo.collaborators) (os := Demo.os_bare)
                None (Demo.world_with [])) as [Hnone _].
    eexists. split; [apply Hnone; [reflexivity | vm_compute; reflexivity]|].
    split; reflexivity.
  - destruct (C7_load_config_fails_without_a_file
                (collab := Demo.collaborators) (os := Demo.os_i3)
                (Some "/tmp/missing") (Demo.world_with [])) as [_ Hopen].
    eexists. split.
    + apply (Hopen "/tmp/missing" []); [left; split; reflexivity | reflexivity].
    + split; reflexivity.
Defined.

(** ** get_config_path *)

Section path_facts.
Context {collab : Collaborators} {os : OS}.

Lemma accesses_app tr1 tr2 : accesses (tr1 ++ tr2) = accesses tr1 ++ accesses tr2.
Proof. unfold accesses. apply omap_app. Qed.

Lemma first_readable_app l1 l2 :
  first_readable (l1 ++ l2)
  = match first_readable l1 with
    | Some p => Some p
    | None => first_readable l2
    end.
Proof.
  induction l1 as [|p l1 IH]; simpl; [done|].
  by destruct (access_R_OK p).
Qed.

Lemma probed_app l1 l2 :
  probed (l1 ++ l2)
  = match first_readable l1 with
    | Some _ => probed l1
    | None => probed l1 ++ probed l2
    end.
Proof.
  induction l1 as [|p l1 IH]; simpl; [done|].
  destruct (access_R_OK p); [done|]. rewrite IH.
  by destruct (first_readable l1).
Qed.

(** The loop over the six fixed candidates. *)
Lemma search_fixed_run home conf :
  ∃ tr,
    search_fixed [home; conf; ""] 0 (length search_paths) []
    = (first_readable (fixed_candidates home conf), tr)
    ∧ accesses tr = probed (fixed_candidates home conf).
Proof.
  unfold fixed_candidates, search_paths. simpl.
  change ("" +:+ "/etc/sway/config") with "/etc/sway/config".
  change ("" +:+ "/etc/i3/config") with "/etc/i3/config".
  repeat (match goal with
          | |- context [access_R_OK ?p] =>
              destruct (access_R_OK p) eqn:?; simpl
          end);
    eexists; (split; [reflexivity|]); simpl;
    repeat match goal with H : access_R_OK _ = _ |- _ => rewrite H end;
    reflexivity.
Qed.

(** The loop over the entries of XDG_CONFIG_DIRS. *)
Lemma search_xdg_run : ∀ dirs tr,
  ∃ tr',
    search_xdg dirs tr
    = (first_readable ((λ d, d +:+ "/sway/config") <$> dirs), tr ++ tr')
    ∧ accesses tr' = probed ((λ d, d +:+ "/sway/config") <$> dirs).
Proof.
  induction dirs as [|d dirs IH]; intros tr; simpl.
  { exists []. by rewrite app_nil_r. }
  destruct (access_R_OK (d +:+ "/sway/config")) eqn:E.
  - eexists [_]. split; [reflexivity|]. simpl. done.
  - destruct (IH (tr ++ [EvAccess (d +:+ "/sway/config") false]))
      as (tr' & -> & Hacc).
    exists (EvAccess (d +:+ "/sway/config") false :: tr').
    split; [by rewrite <- app_assoc|]. simpl. by rewrite Hacc.
Qed.

(** Past the two [strlen] calls, the search is the same for every
    environment. *)
Lemma get_config_path_search :
  is_Some (getenv "HOME") ∨ getenv "XDG_CONFIG_HOME" = None →
  ∃ tr,
    get_config_path = Ok (first_readable candidates, tr)
    ∧ accesses tr = probed candidates.
Proof.
  intros Henv.
  unfold get_config_path, candidates, home_dir, config_home, xdg_candidates.
  rewrite first_readable_app, probed_app.
  destruct (getenv "HOME") as [h|] eqn:Hhome;
    destruct (getenv "XDG_CONFIG_HOME") as [x|] eqn:Hconf;
    try (destruct Henv as [[? ?]|?]; discriminate);
    cbv beta iota zeta delta [strlen from_option id];
    match goal with
    | |- context [search_fixed [?a; ?b; ""] _ _ _] =>
        destruct (search_fixed_run a b) as (tr1 & -> & Hacc1)
    end;
    (destruct (first_readable (fixed_candidates _ _)) as [p|];
     [by exists tr1|]);
    (destruct (getenv "XDG_CONFIG_DIRS") as [dirs|];
     [ destruct (search_xdg_run (split_string dirs ":")
                   (tr1 ++ [EvLog L_DEBUG
                              "Trying to find config in XDG_CONFIG_DIRS" ""]))
         as (tr2 & -> & Hacc2);
       eexists; split; [reflexivity|];
       rewrite !accesses_app, Hacc1, Hacc2; simpl; by rewrite app_nil_r
     | eexists; split; [reflexivity|];
       rewrite accesses_app, Hacc1; simpl; by rewrite !app_nil_r ]).
Qed.
End path_facts.

(** C2: with HOME unset and XDG_CONFIG_HOME set, [home] stays a null pointer
    and [strlen(home)] dereferences it. *)
Theorem C2_unset_home_is_dereferenced {collab : Collaborators} {os : OS}
    (conf : string) :
  getenv "HOME" = None →
  getenv "XDG_CONFIG_HOME" = Some conf →
  get_config_path = Fault NullDeref.
Proof. intros Hhome Hconf. unfold get_config_path. by rewrite Hhome, Hconf. Qed.

Lemma C2_unset_home_is_dereferenced_witness :
  get_config_path (collab := Demo.collaborators) (os := Demo.os_no_home)
  = Fault NullDeref.
Proof.
  apply (C2_unset_home_is_dereferenced
           (collab := Demo.collaborators) (os := Demo.os_no_home) "/xdg");
    reflexivity.
Defined.

(** C8, as the specification words it, fails: with no variable set and
    [/.config/sway/config] the only readable file, the second candidate of
    the specification, [$HOME/.config/sway/config] with an empty HOME, is
    that file, but [get_config_path] probes [/sway/config] instead and finds
    nothing. *)
Lemma C8_config_home_is_empty_without_home :
  first_readable (os := Demo.os_bare)
    (spec_candidates (collab := Demo.collaborators) (os := Demo.os_bare))
  = Some "/.config/sway/config"
  ∧ fst <$> (match get_config_path (collab := Demo.collaborators)
                     (os := Demo.os_bare) with
             | Ok r => Some r
             | Fault _ => None
             end) = Some None.
Proof. split; vm_compute; reflexivity. Qed.

(** C8, amended: when HOME is set, or neither HOME nor XDG_CONFIG_HOME is,
    [get_config_path] returns the first readable candidate of
    [$HOME/.sway/config], [$CONFIG_HOME/sway/config], [/etc/sway/config],
    [$HOME/.i3/config], [$CONFIG_HOME/.i3/config], [/etc/i3/config] and the
    entries of XDG_CONFIG_DIRS with [/sway/config] appended, and probes no
    candidate after it; [$CONFIG_HOME] is XDG_CONFIG_HOME if set, else
    [$HOME/.config] if HOME is set, else empty, and an unset HOME is
    empty. *)
Theorem C8_first_readable_candidate_wins {collab : Collaborators} {os : OS} :
  is_Some (getenv "HOME") ∨ getenv "XDG_CONFIG_HOME" = None →
  ∃ tr,
    get_config_path = Ok (first_readable candidates, tr)
    ∧ accesses tr = probed candidates.
Proof. apply get_config_path_search. Qed.

Lemma C8_first_readable_candidate_wins_witness :
  ∃ tr,
    get_config_path (collab := Demo.collaborators) (os := Demo.os_i3)
    = Ok (Some "/home/u/.i3/config", tr)
    ∧ accesses tr
      = [ "/home/u/.sway/config"; "/home/u/.config/sway/config";
          "/etc/sway/config"; "/home/u/.i3/config" ].
Proof.
  destruct (C8_first_readable_candidate_wins
              (collab := Demo.collaborators) (os := Demo.os_i3))
    as (tr & Hpath & Hacc).
  { left. eexists. reflexivity. }
  exists tr. split; [exact Hpath | exact Hacc].
Defined.

(** ** do_var_replacement *)

(** C3, as the specification words it, fails: a variable named [foo] is not
    found at the marker of [$foo], because the comparison starts at the
    marker itself; the string comes back unchanged. *)
Lemma C3_name_without_marker_does_not_match :
  ∃ out,
    do_var_replacement 12
      (Demo.world_with [ {| var_name := "foo"; var_value := "BAR" |} ])
      "go $foo now" = Some (Ok out)
    ∧ out = "go $foo now"
    ∧ out ≠ "go BAR now".
Proof. exists "go $foo now". split; [vm_compute; reflexivity|]. done. Qed.

(** C3, amended: with a live store whose only variable has the name [$foo],
    marker included, and the value [BAR], the string ["go $foo now"] becomes
    ["go BAR now"]. *)
Theorem C3_name_with_marker_is_replaced (w : world) (cfg : sway_config)
    (fuel : nat) :
  deref_config w = Ok cfg →
  symbols cfg = [ {| var_name := "$foo"; var_value := "BAR" |} ] →
  11 ≤ fuel →
  do_var_replacement fuel w "go $foo now" = Some (Ok "go BAR now").
Proof.
  intros Hw Hsyms Hfuel.
  apply (var_loop_mono w 11); [|done].
  unfold do_var_replacement. simpl. rewrite Hw, Hsyms. reflexivity.
Qed.

Lemma C3_name_with_marker_is_replaced_witness :
  do_var_replacement 11
    (Demo.world_with [ {| var_name := "$foo"; var_value := "BAR" |} ])
    "go $foo now" = Some (Ok "go BAR now").
Proof.
  apply (C3_name_with_marker_is_replaced _
           (Demo.store_with [ {| var_name := "$foo"; var_value := "BAR" |} ]));
    [vm_compute; reflexivity | reflexivity | lia].
Defined.

Lemma get_string_take (s : string) : ∀ n i,
  i < n → String.get i (string_take n s) = String.get i s.
Proof.
  induction s as [|a s IH]; intros [|n] [|i] Hi; simpl; try done; try lia.
  apply IH. lia.
Qed.

(** A state that the scan of a call passes through is one from which the
    rest of the call runs. *)
Lemma scan_reaches_run w str0 i s :
  scan_reaches w str0 i s →
  ∀ fuel r, do_var_replacement fuel w str0 = Some r →
            ∃ fuel', var_loop fuel' w i s = Some r.
Proof.
  induction 1 as [|i s c Hreach IH Hc Hnul Hm|i s cfg Hreach IH Hc Hw];
    intros fuel r Hrun.
  - by exists fuel.
  - destruct (IH fuel r Hrun) as [[|fuel'] Hloop]; [done|].
    exists fuel'. simpl in Hloop. rewrite Hc in Hloop.
    by rewrite !decide_False in Hloop by done.
  - destruct (IH fuel r Hrun) as [[|fuel'] Hloop]; [done|].
    exists fuel'. simpl in Hloop. rewrite Hc in Hloop.
    rewrite decide_False in Hloop by done.
    rewrite decide_True in Hloop by done. by rewrite Hw in Hloop.
Qed.

(** C9, as the specification words it, fails: in ["$a$b"] the marker at
    index 2 has no name of the table as a prefix of the text that starts
    there, but the name [$a$] matched at index 0 reaches over it, and the
    string returned has no marker left. *)
Lemma C9_unmatched_marker_is_swallowed :
  String.get 2 "$a$b" = Some marker
  ∧ String.prefix "$a$" (string_drop 2 "$a$b") = false
  ∧ do_var_replacement 5
      (Demo.world_with [ {| var_name := "$a$"; var_value := "Z" |} ]) "$a$b"
    = Some (Ok "Zb")
  ∧ avoids [marker] "Zb" = true.
Proof. repeat split; vm_compute; reflexivity. Qed.

(** C9, amended: a string without the marker comes back unchanged,
    whatever the global [config] is.  With a live store, when the scan of a
    call arrives at a marker, one that no earlier substitution has consumed,
    and no name of the table is a prefix of the text that starts there,
    this step leaves the string as it is, the scan goes on at the next
    index, and whatever the call returns has that marker at the same index
    and agrees with the string before it; if this holds of every marker of
    the input, the input comes back unchanged. *)
Theorem C9_reached_unmatched_markers_are_kept (w : world) (str : string) :
  ((∀ k, String.get k str ≠ Some marker) →
   ∀ fuel, String.length str < fuel →
     do_var_replacement fuel w str = Some (Ok str))
  ∧ (∀ cfg i s,
       deref_config w = Ok cfg →
       scan_reaches w str i s →
       String.get i s = Some marker →
       unmatched (symbols cfg) i s →
       scan_reaches w str (S i) s
       ∧ (∀ fuel, var_loop (S fuel) w i s = var_loop fuel w (S i) s)
       ∧ ∀ fuel out,
           do_var_replacement fuel w str = Some (Ok out) →
           string_take (S i) out = string_take (S i) s
           ∧ String.get i out = Some marker)
  ∧ (∀ cfg,
       deref_config w = Ok cfg →
       (∀ k, String.get k str = Some marker → unmatched (symbols cfg) k str) →
       ∀ fuel, String.length str < fuel →
         do_var_replacement fuel w str = Some (Ok str)).
Proof.
  split; [|split].
  - intros Hfree fuel Hfuel. apply var_loop_marker_free; [lia | auto | lia].
  - intros cfg i s Hw Hreach Hi Hun.
    assert (scan_reaches w str (S i) s) as Hnext.
    { pose proof (reach_marker w str i s cfg Hreach
                    (char_at_Some _ _ _ Hi) Hw) as Hstep.
      by rewrite try_vars_unmatched in Hstep. }
    split; [done|]. split.
    { intros fuel. simpl. rewrite (char_at_Some _ _ _ Hi).
      rewrite decide_False by done. rewrite decide_True by done.
      by rewrite Hw, try_vars_unmatched. }
    intros fuel out Hout.
    destruct (scan_reaches_run w str (S i) s Hnext fuel (Ok out) Hout)
      as [fuel' Hloop].
    pose proof (get_Some_lt _ _ _ Hi) as Hlt.
    pose proof (var_loop_keeps_prefix w fuel' (S i) s out Hlt Hloop) as Htake.
    split; [done|].
    rewrite <- (get_string_take out (S i) i) by lia.
    rewrite Htake, get_string_take by lia. done.
  - intros cfg Hw Hun fuel Hfuel.
    apply (var_loop_unmatched w cfg); [done | lia | auto | lia].
Qed.

Lemma C9_reached_unmatched_markers_are_kept_witness :
  do_var_replacement 8 Demo.world_empty "gaps 10" = Some (Ok "gaps 10")
  ∧ (do_var_replacement 20
       (Demo.world_with [ {| var_name := "$mod"; var_value := "Mod4" |} ])
       "cost $5 $mod" = Some (Ok "cost $5 Mod4")
     ∧ string_take 6 "cost $5 Mod4" = string_take 6 "cost $5 $mod"
     ∧ String.get 5 "cost $5 Mod4" = Some marker)
  ∧ do_var_replacement 9
      (Demo.world_with [ {| var_name := "$mod"; var_value := "Mod4" |} ])
      "cost $5 " = Some (Ok "cost $5 ").
Proof.
  split; [|split].
  - apply (C9_reached_unmatched_markers_are_kept Demo.world_empty "gaps 10");
      [|simpl; lia].
    by apply avoids_marker_free.
  - assert (do_var_replacement 20
              (Demo.world_with [ {| var_name := "$mod"; var_value := "Mod4" |} ])
              "cost $5 $mod" = Some (Ok "cost $5 Mod4")) as Hrun
      by (vm_compute; reflexivity).
    split; [exact Hrun|].
    destruct (C9_reached_unmatched_markers_are_kept
                (Demo.world_with
                   [ {| var_name := "$mod"; var_value := "Mod4" |} ])
                "cost $5 $mod") as (_ & Hstep & _).
    destruct (Hstep (Demo.store_with
                       [ {| var_name := "$mod"; var_value := "Mod4" |} ])
                5 "cost $5 $mod") as (_ & _ & Hout).
    + vm_compute. reflexivity.
    + do 5 (eapply reach_plain; [| reflexivity | done | done]).
      apply reach_start.
    + reflexivity.
    + intros v Hv. apply list_elem_of_singleton in Hv as ->. reflexivity.
    + exact (Hout 20 "cost $5 Mod4" Hrun).
  - eapply (C9_reached_unmatched_markers_are_kept
              (Demo.world_with [ {| var_name := "$mod"; var_value := "Mod4" |} ])
              "cost $5 "); [vm_compute; reflexivity | | simpl; lia].
    intros k Hk var Hvar. apply list_elem_of_singleton in Hvar as ->.
    do 9 (destruct k as [|k]; [try done|]). done.
Defined.

(** C10: without a live store, the first marker that the scan meets makes
    it read [config->symbols] through the null pointer: at a marker the
    loop faults at once, and a call on any C string that contains the marker
    faults. *)
Theorem C10_null_store_is_dereferenced (w : world) (str : string) :
  config w = None →
  (∀ i fuel, String.get i str = Some marker →
             var_loop (S fuel) w i str = Some (Fault NullDeref))
  ∧ (cstring str →
     (∃ i, String.get i str = Some marker) →
     ∀ fuel, String.length str < fuel →
       do_var_replacement fuel w str = Some (Fault NullDeref)).
Proof.
  intros Hw. split.
  - intros i fuel Hi. simpl. rewrite (char_at_Some _ _ _ Hi).
    rewrite decide_False by done. rewrite decide_True by done.
    unfold deref_config. by rewrite Hw.
  - intros Hc [i Hi] fuel Hfuel.
    apply get_Some_lt in Hi as Hlt.
    apply (var_loop_null w fuel 0 i str); try done; lia.
Qed.

Lemma C10_null_store_is_dereferenced_witness :
  do_var_replacement 12 Demo.world_empty "go $foo now" = Some (Fault NullDeref).
Proof.
  apply (C10_null_store_is_dereferenced Demo.world_empty "go $foo now");
    [reflexivity | | by exists 3 | simpl; lia].
  intros i. do 12 (destruct i as [|i]; [done|]). done.
Defined.

(** * Further properties of do_var_replacement *)

Lemma string_drop_app (pre s : string) :
  string_drop (String.length pre) (pre +:+ s) = s.
Proof. induction pre as [|a pre IH]; simpl; [by destruct s | done]. Qed.

Lemma string_take_app_length (pre s : string) :
  string_take (String.length pre) (pre +:+ s) = pre.
Proof.
  induction pre as [|a pre IH]; simpl; [by destruct s | by rewrite IH].
Qed.

Lemma string_drop_add (s : string) : ∀ n m,
  string_drop (n + m) s = string_drop m (string_drop n s).
Proof.
  induction s as [|a s IH]; intros [|n] m; simpl; try done.
  by destruct m.
Qed.

Lemma get_app_l (pre s : string) : ∀ k,
  k < String.length pre → String.get k (pre +:+ s) = String.get k pre.
Proof.
  induction pre as [|a pre IH]; intros [|k] Hk; simpl in *; try lia; [done|].
  apply IH. lia.
Qed.

Lemma get_app_r (pre s : string) : ∀ k,
  String.get (String.length pre + k) (pre +:+ s) = String.get k s.
Proof. induction pre as [|a pre IH]; intros k; simpl; [done | apply IH]. Qed.

Lemma prefix_app (n s : string) : String.prefix n (n +:+ s) = true.
Proof.
  induction n as [|a n IH]; simpl; [by destruct s|].
  cbn [String.prefix]. by destruct (ascii_dec a a).
Qed.

Lemma prefix_split (n t : string) :
  String.prefix n t = true → t = n +:+ string_drop (String.length n) t.
Proof.
  revert t. induction n as [|a n IH]; intros t; simpl.
  { by destruct t. }
  destruct t as [|b t]; [done|]. cbn [String.prefix].
  destruct (ascii_dec a b) as [->|]; [|done].
  intros H. exact (f_equal (String b) (IH t H)).
Qed.

Lemma string_app_assoc (a b c : string) : (a +:+ b) +:+ c = a +:+ (b +:+ c).
Proof.
  induction a as [|x a IH]; [done | exact (f_equal (String x) IH)].
Qed.

(** The scan steps over characters that are neither marker nor terminator. *)
Lemma var_loop_skip w : ∀ n fuel i str,
  (∀ k, i ≤ k < i + n →
        ∃ c, String.get k str = Some c ∧ c ≠ NUL ∧ c ≠ marker) →
  var_loop (n + fuel) w i str = var_loop fuel w (i + n) str.
Proof.
  induction n as [|n IH]; intros fuel i str Hplain.
  { by rewrite Nat.add_0_r. }
  destruct (Hplain i) as (c & Hc & Hnul & Hm); [lia|].
  simpl. rewrite (char_at_Some _ _ _ Hc).
  rewrite !decide_False by done.
  rewrite IH by (intros k Hk; apply Hplain; lia).
  f_equal. lia.
Qed.

Lemma var_loop_skip_plain w pre rest fuel :
  plain pre →
  var_loop (String.length pre + fuel) w 0 (pre +:+ rest)
  = var_loop fuel w (String.length pre) (pre +:+ rest).
Proof.
  intros Hpre. apply (var_loop_skip w (String.length pre) fuel 0).
  intros k Hk. rewrite get_app_l by lia.
  destruct (get_lt_Some pre k) as [c Hc]; [lia|].
  exists c. destruct (Hpre k) as [H1 H2]. split; [done|]. split; congruence.
Qed.

(** The replacement of a name found behind [pre]. *)
Lemma try_var_at_name pre post var :
  try_var (String.length pre) (pre +:+ var_name var +:+ post) var
  = pre +:+ var_value var +:+ post.
Proof.
  unfold try_var. rewrite string_drop_app.
  rewrite decide_True by (apply strstr_zero_prefix, prefix_app).
  unfold replace_at. rewrite string_take_app_length, string_drop_add.
  by rewrite !string_drop_app.
Qed.

Lemma first_char_get (s : string) c :
  first_char s = c → c ≠ NUL → String.get 0 s = Some c.
Proof. destruct s; simpl; congruence. Qed.

Lemma string_app_nil_r (s : string) : s +:+ "" = s.
Proof. induction s as [|a s IH]; [done | exact (f_equal (String a) IH)]. Qed.

(** A name that starts with the marker is no prefix of a text that does
    not. *)
Lemma marker_name_unmatched (others : list sway_variable) pre text :
  (∀ v, v ∈ others → first_char (var_name v) = marker) →
  first_char text ≠ marker →
  unmatched others (String.length pre) (pre +:+ text).
Proof.
  intros Hnames Htext v Hv. rewrite string_drop_app.
  specialize (Hnames v Hv).
  destruct (var_name v) as [|c nm]; [done|]. simpl in Hnames. subst c.
  destruct text as [|b text]; [done|]. cbn [String.prefix].
  destruct (ascii_dec marker b) as [<-|]; [|done]. by destruct Htext.
Qed.

(** The state of the scan after the first matching variable of the table
    was substituted behind a plain prefix and no later variable matched. *)
Lemma var_loop_first_match w cfg before var others pre post fuel :
  deref_config w = Ok cfg →
  symbols cfg = before ++ var :: others →
  first_char (var_name var) = marker →
  plain pre →
  unmatched before (String.length pre) (pre +:+ var_name var +:+ post) →
  unmatched others (String.length pre) (pre +:+ var_value var +:+ post) →
  do_var_replacement (String.length pre + S fuel) w
    (pre +:+ var_name var +:+ post)
  = var_loop fuel w (S (String.length pre)) (pre +:+ var_value var +:+ post).
Proof.
  intros Hw Hsyms Hname Hpre Hbefore Hothers. unfold do_var_replacement.
  rewrite var_loop_skip_plain by done. simpl.
  assert (String.get (String.length pre) (pre +:+ var_name var +:+ post)
          = Some marker) as Hget.
  { rewrite <- (Nat.add_0_r (String.length pre)), get_app_r.
    destruct (var_name var) as [|c nm]; simpl in *; [done | congruence]. }
  rewrite (char_at_Some _ _ _ Hget).
  rewrite decide_False by done. rewrite decide_True by done.
  rewrite Hw, Hsyms. unfold try_vars. rewrite fold_left_app.
  fold (try_vars before (String.length pre) (pre +:+ var_name var +:+ post)).
  rewrite try_vars_unmatched by done. simpl.
  rewrite try_var_at_name.
  fold (try_vars others (String.length pre) (pre +:+ var_value var +:+ post)).
  by rewrite try_vars_unmatched.
Qed.

Lemma first_match_result (w : world) (cfg : sway_config)
    (before : list sway_variable) (var : sway_variable)
    (others : list sway_variable) (pre post : string) (fuel : nat) :
  deref_config w = Ok cfg →
  symbols cfg = before ++ var :: others →
  first_char (var_name var) = marker →
  plain pre →
  marker_free (var_value var +:+ post) →
  var_value var +:+ post ≠ "" →
  unmatched before (String.length pre) (pre +:+ var_name var +:+ post) →
  unmatched others (String.length pre) (pre +:+ var_value var +:+ post) →
  String.length (pre +:+ var_value var +:+ post) < fuel →
  do_var_replacement fuel w (pre +:+ var_name var +:+ post)
  = Some (Ok (pre +:+ var_value var +:+ post)).
Proof.
  intros Hw Hsyms Hname Hpre Hfree Hne Hbefore Hothers Hfuel.
  rewrite length_app_string in Hfuel.
  assert (0 < String.length (var_value var +:+ post))
    by (destruct (var_value var +:+ post); [done | simpl; lia]).
  replace fuel
    with (String.length pre
          + S (fuel - String.length pre - 1)) by lia.
  rewrite (var_loop_first_match w cfg before var others) by done.
  apply var_loop_marker_free.
  - rewrite length_app_string. lia.
  - intros k Hk.
    replace k with (String.length pre + (k - String.length pre)) by lia.
    rewrite get_app_r. apply Hfree.
  - rewrite length_app_string. lia.
Qed.

(** X1: the first variable of the table whose name stands at a marker is
    the one substituted.  Behind a prefix without marker, with no earlier
    variable matching there, no later variable matching the text after the
    substitution, and no marker in the value and the rest, the name is
    replaced by the value and the call returns. *)
Theorem X1_first_match_is_substituted (w : world) (cfg : sway_config)
    (before : list sway_variable) (var : sway_variable)
    (others : list sway_variable) (pre post : string) (fuel : nat) :
  deref_config w = Ok cfg →
  symbols cfg = before ++ var :: others →
  first_char (var_name var) = marker →
  plain pre →
  marker_free (var_value var +:+ post) →
  var_value var +:+ post ≠ "" →
  unmatched before (String.length pre) (pre +:+ var_name var +:+ post) →
  unmatched others (String.length pre) (pre +:+ var_value var +:+ post) →
  String.length (pre +:+ var_value var +:+ post) < fuel →
  do_var_replacement fuel w (pre +:+ var_name var +:+ post)
  = Some (Ok (pre +:+ var_value var +:+ post)).
Proof. apply first_match_result. Qed.

Lemma X1_first_match_is_substituted_witness :
  do_var_replacement 20
    (Demo.world_with [ {| var_name := "$alt"; var_value := "Mod1" |};
                       {| var_name := "$mod"; var_value := "Mod4" |};
                       {| var_name := "od4"; var_value := "!" |} ])
    "bindsym $mod+x"
  = Some (Ok "bindsym Mod4+x").
Proof.
  apply (X1_first_match_is_substituted _
           (Demo.store_with
              [ {| var_name := "$alt"; var_value := "Mod1" |};
                {| var_name := "$mod"; var_value := "Mod4" |};
                {| var_name := "od4"; var_value := "!" |} ])
           [ {| var_name := "$alt"; var_value := "Mod1" |} ]
           {| var_name := "$mod"; var_value := "Mod4" |}
           [ {| var_name := "od4"; var_value := "!" |} ]
           "bindsym " "+x" 20).
  - vm_compute. reflexivity.
  - reflexivity.
  - reflexivity.
  - by apply avoids_plain.
  - by apply avoids_marker_free.
  - done.
  - intros v Hv. apply list_elem_of_singleton in Hv as ->. reflexivity.
  - intros v Hv. apply list_elem_of_singleton in Hv as ->. reflexivity.
  - simpl. lia.
Defined.

(** X2: a substitution that leaves nothing behind the prefix makes the scan
    read one character past the end of the new string: with an empty value
    for a name that ends the string, the index is stepped beyond the
    terminator of the shortened buffer. *)
Theorem X2_empty_value_at_the_end_reads_out_of_bounds (w : world)
    (cfg : sway_config) (before : list sway_variable) (var : sway_variable)
    (others : list sway_variable) (pre : string) (fuel : nat) :
  deref_config w = Ok cfg →
  symbols cfg = before ++ var :: others →
  first_char (var_name var) = marker →
  var_value var = "" →
  plain pre →
  unmatched before (String.length pre) (pre +:+ var_name var) →
  unmatched others (String.length pre) pre →
  String.length pre + 2 ≤ fuel →
  do_var_replacement fuel w (pre +:+ var_name var) = Some (Fault OutOfBounds).
Proof.
  intros Hw Hsyms Hname Hval Hpre Hbefore Hothers Hfuel.
  replace fuel
    with (String.length pre + S (S (fuel - String.length pre - 2))) by lia.
  rewrite <- (string_app_nil_r (var_name var)).
  rewrite <- (string_app_nil_r (var_name var)) in Hbefore.
  rewrite (var_loop_first_match w cfg before var others);
    try done; rewrite Hval; simpl; rewrite ?string_app_nil_r; try done.
  rewrite char_at_beyond; [done | lia].
Qed.

Lemma X2_empty_value_at_the_end_reads_out_of_bounds_witness :
  do_var_replacement 8
    (Demo.world_with [ {| var_name := "$none"; var_value := "" |} ])
    "x$none"
  = Some (Fault OutOfBounds).
Proof.
  apply (X2_empty_value_at_the_end_reads_out_of_bounds _
           (Demo.store_with [ {| var_name := "$none"; var_value := "" |} ])
           [] {| var_name := "$none"; var_value := "" |}
           [] "x" 8).
  - vm_compute. reflexivity.
  - reflexivity.
  - reflexivity.
  - reflexivity.
  - by apply avoids_plain.
  - intros v Hv. by apply elem_of_nil in Hv.
  - intros v Hv. by apply elem_of_nil in Hv.
  - simpl. lia.
Defined.

(** X3: later definitions are ignored.  When every later variable of the
    table has a name that starts with the marker, a duplicate of the
    substituted name included, and the text after the substitution has no
    marker, the value of the first matching variable is the result. *)
Theorem X3_later_definitions_are_ignored (w : world) (cfg : sway_config)
    (var : sway_variable) (others : list sway_variable)
    (pre post : string) (fuel : nat) :
  deref_config w = Ok cfg →
  symbols cfg = var :: others →
  first_char (var_name var) = marker →
  (∀ v, v ∈ others → first_char (var_name v) = marker) →
  plain pre →
  marker_free (var_value var +:+ post) →
  var_value var +:+ post ≠ "" →
  String.length (pre +:+ var_value var +:+ post) < fuel →
  do_var_replacement fuel w (pre +:+ var_name var +:+ post)
  = Some (Ok (pre +:+ var_value var +:+ post)).
Proof.
  intros Hw Hsyms Hname Hnames Hpre Hfree Hne Hfuel.
  apply (first_match_result w cfg [] var others); try done.
  - intros v Hv. by apply elem_of_nil in Hv.
  - apply marker_name_unmatched; [done|].
    specialize (Hfree 0).
    destruct (var_value var +:+ post) as [|c s]; [done|].
    simpl in *. congruence.
Qed.

Lemma X3_later_definitions_are_ignored_witness :
  do_var_replacement 20
    (Demo.world_with [ {| var_name := "$mod"; var_value := "Mod4" |};
                       {| var_name := "$mod"; var_value := "Mod1" |} ])
    "bindsym $mod+x"
  = Some (Ok "bindsym Mod4+x").
Proof.
  apply (X3_later_definitions_are_ignored _
           (Demo.store_with
              [ {| var_name := "$mod"; var_value := "Mod4" |};
                {| var_name := "$mod"; var_value := "Mod1" |} ])
           {| var_name := "$mod"; var_value := "Mod4" |}
           [ {| var_name := "$mod"; var_value := "Mod1" |} ]
           "bindsym " "+x" 20).
  - vm_compute. reflexivity.
  - reflexivity.
  - reflexivity.
  - intros v Hv. apply list_elem_of_singleton in Hv as ->. reflexivity.
  - by apply avoids_plain.
  - by apply avoids_marker_free.
  - done.
  - simpl. lia.
Defined.

(** X4: substitutions compound at one position.  When the text that the
    first variable puts at the marker starts with the name of the second,
    the second is substituted there as well, in the same pass over the
    table. *)
Theorem X4_substitutions_compound (w : world) (cfg : sway_config)
    (v1 v2 : sway_variable) (pre post post2 : string) (fuel : nat) :
  deref_config w = Ok cfg →
  symbols cfg = [v1; v2] →
  first_char (var_name v1) = marker →
  plain pre →
  var_value v1 +:+ post = var_name v2 +:+ post2 →
  marker_free (var_value v2 +:+ post2) →
  var_value v2 +:+ post2 ≠ "" →
  String.length (pre +:+ var_value v2 +:+ post2) < fuel →
  do_var_replacement fuel w (pre +:+ var_name v1 +:+ post)
  = Some (Ok (pre +:+ var_value v2 +:+ post2)).
Proof.
  intros Hw Hsyms Hname Hpre Hchain Hfree Hne Hfuel.
  rewrite length_app_string in Hfuel.
  assert (0 < String.length (var_value v2 +:+ post2))
    by (destruct (var_value v2 +:+ post2); [done | simpl; lia]).
  replace fuel
    with (String.length pre + S (fuel - String.length pre - 1)) by lia.
  unfold do_var_replacement. rewrite var_loop_skip_plain by done. simpl.
  assert (String.get (String.length pre) (pre +:+ var_name v1 +:+ post)
          = Some marker) as Hget.
  { rewrite <- (Nat.add_0_r (String.length pre)), get_app_r.
    destruct (var_name v1) as [|c nm]; simpl in *; [done | congruence]. }
  rewrite (char_at_Some _ _ _ Hget).
  rewrite decide_False by done. rewrite decide_True by done.
  rewrite Hw, Hsyms. unfold try_vars. simpl.
  rewrite try_var_at_name, Hchain, try_var_at_name.
  apply var_loop_marker_free.
  - rewrite length_app_string. lia.
  - intros k Hk.
    replace k with (String.length pre + (k - String.length pre)) by lia.
    rewrite get_app_r. apply Hfree.
  - rewrite length_app_string. lia.
Qed.

Lemma X4_substitutions_compound_witness :
  do_var_replacement 20
    (Demo.world_with [ {| var_name := "$mod"; var_value := "Mod4" |};
                       {| var_name := "Mod"; var_value := "Super" |} ])
    "bindsym $mod+x"
  = Some (Ok "bindsym Super4+x").
Proof.
  apply (X4_substitutions_compound _
           (Demo.store_with
              [ {| var_name := "$mod"; var_value := "Mod4" |};
                {| var_name := "Mod"; var_value := "Super" |} ])
           {| var_name := "$mod"; var_value := "Mod4" |}
           {| var_name := "Mod"; var_value := "Super" |}
           "bindsym " "+x" "4+x" 20).
  - vm_compute. reflexivity.
  - reflexivity.
  - reflexivity.
  - by apply avoids_plain.
  - reflexivity.
  - by apply avoids_marker_free.
  - done.
  - simpl. lia.
Defined.

(** ** Faults and termination of do_var_replacement *)

Lemma try_var_length_nonempty i str var :
  var_value var ≠ "" → i < String.length str →
  i < String.length (try_var i str var).
Proof.
  intros Hval Hi. unfold try_var. case_decide; [|done].
  unfold replace_at. rewrite !length_app_string, length_string_take by lia.
  destruct (var_value var); [done | simpl; lia].
Qed.

Lemma try_vars_length_nonempty syms : ∀ i str,
  (∀ v, v ∈ syms → var_value v ≠ "") → i < String.length str →
  i < String.length (try_vars syms i str).
Proof.
  unfold try_vars. induction syms as [|v syms IH]; intros i str Hvals Hi;
    simpl; [done|].
  apply IH; [intros v' Hv'; apply Hvals; by right|].
  apply try_var_length_nonempty; [apply Hvals; by left | done].
Qed.

Lemma var_loop_no_fault w cfg : ∀ fuel i str r,
  deref_config w = Ok cfg →
  (∀ v, v ∈ symbols cfg → var_value v ≠ "") →
  i ≤ String.length str →
  var_loop fuel w i str = Some r → ∃ out, r = Ok out.
Proof.
  induction fuel as [|fuel IH]; intros i str r Hw Hvals Hi Hrun; [done|].
  simpl in Hrun.
  destruct (decide (i = String.length str)) as [->|Hne].
  { rewrite char_at_end in Hrun. rewrite decide_True in Hrun by done.
    eexists. by simplify_eq. }
  destruct (get_lt_Some str i) as [c Hc]; [lia|].
  rewrite (char_at_Some _ _ _ Hc) in Hrun.
  case_decide; [eexists; by simplify_eq|].
  case_decide.
  - rewrite Hw in Hrun. eapply IH; [done | done | | exact Hrun].
    apply try_vars_length_nonempty; [done | lia].
  - eapply IH; [done | done | | exact Hrun]. lia.
Qed.

(** X5: with a live store whose variables all have a non-empty value,
    [do_var_replacement] never faults: whatever it returns is a string. *)
Theorem X5_non_empty_values_never_fault (w : world) (cfg : sway_config)
    (str : string) (fuel : nat) (r : result string) :
  deref_config w = Ok cfg →
  (∀ v, v ∈ symbols cfg → var_value v ≠ "") →
  do_var_replacement fuel w str = Some r →
  ∃ out, r = Ok out.
Proof.
  intros Hw Hvals Hrun.
  apply (var_loop_no_fault w cfg fuel 0 str r); [done | done | lia | done].
Qed.

Lemma X5_non_empty_values_never_fault_witness :
  ∃ out,
    Ok (A := string) "bindsym Super4+x" = Ok out.
Proof.
  apply (X5_non_empty_values_never_fault
           (Demo.world_with [ {| var_name := "$mod"; var_value := "Mod4" |};
                              {| var_name := "Mod"; var_value := "Super" |} ])
           (Demo.store_with
              [ {| var_name := "$mod"; var_value := "Mod4" |};
                {| var_name := "Mod"; var_value := "Super" |} ])
           "bindsym $mod+x" 20).
  - vm_compute. reflexivity.
  - intros v Hv. simpl in Hv.
    apply elem_of_cons in Hv as [->|Hv]; [done|].
    apply list_elem_of_singleton in Hv as ->. done.
  - vm_compute. reflexivity.
Defined.

Lemma count_markers_app (a b : string) :
  count_markers (a +:+ b) = count_markers a + count_markers b.
Proof.
  induction a as [|c a IH]; [done|].
  change (String c a +:+ b) with (String c (a +:+ b)). simpl.
  rewrite IH. lia.
Qed.

Lemma count_markers_drop_le (s : string) : ∀ n,
  count_markers (string_drop n s) ≤ count_markers s.
Proof.
  induction s as [|c s IH]; intros [|n]; simpl; try lia.
  specialize (IH n). lia.
Qed.

Lemma count_markers_free (s : string) : marker_free s → count_markers s = 0.
Proof.
  induction s as [|c s IH]; intros Hfree; [done|]. simpl.
  rewrite decide_False by (intros ->; by apply (Hfree 0)).
  apply IH. intros k. apply (Hfree (S k)).
Qed.

Lemma string_drop_get (s : string) : ∀ i c,
  String.get i s = Some c → string_drop i s = String c (string_drop (S i) s).
Proof.
  induction s as [|a s IH]; intros [|i] c Hc; simpl in *; try done.
  - simplify_eq. by destruct s.
  - rewrite (IH i c Hc). by destruct s.
Qed.

Lemma string_drop_take_app (s x : string) i :
  i ≤ String.length s → string_drop i (string_take i s +:+ x) = x.
Proof.
  intros Hi. rewrite <- (length_string_take s i Hi) at 1.
  apply string_drop_app.
Qed.

Lemma string_drop_S (s : string) i :
  string_drop (S i) s = string_drop 1 (string_drop i s).
Proof. rewrite <- string_drop_add. f_equal. lia. Qed.

(** A substitution of a non-empty name by a value without marker does not
    add a marker behind the index. *)
Lemma try_var_markers i str var :
  var_name var ≠ "" → marker_free (var_value var) →
  i ≤ String.length str →
  count_markers (string_drop (S i) (try_var i str var))
  ≤ count_markers (string_drop (S i) str).
Proof.
  intros Hname Hval Hi. unfold try_var. case_decide as Hmatch; [|done].
  apply strstr_zero_prefix, prefix_split in Hmatch.
  unfold replace_at.
  rewrite (string_drop_S (_ +:+ _)), string_drop_take_app by done.
  rewrite string_drop_add.
  set (rest := string_drop (String.length (var_name var)) (string_drop i str))
    in *.
  rewrite (string_drop_S str), Hmatch.
  etrans; [apply count_markers_drop_le|].
  rewrite count_markers_app, (count_markers_free _ Hval).
  destruct (var_name var) as [|c nm]; [done|].
  change (String c nm +:+ rest) with (String c (nm +:+ rest)). simpl.
  replace (string_drop 0 (nm +:+ rest)) with (nm +:+ rest)
    by by destruct (nm +:+ rest).
  rewrite count_markers_app. lia.
Qed.

Lemma try_vars_markers syms : ∀ i str,
  (∀ v, v ∈ syms → var_name v ≠ "" ∧ marker_free (var_value v)) →
  i ≤ String.length str →
  count_markers (string_drop (S i) (try_vars syms i str))
  ≤ count_markers (string_drop (S i) str).
Proof.
  unfold try_vars. induction syms as [|v syms IH]; intros i str Hsyms Hi;
    simpl; [done|].
  destruct (Hsyms v) as [Hname Hval]; [by left|].
  etrans; [apply IH|].
  - intros v' Hv'. apply Hsyms. by right.
  - by apply try_var_keeps_prefix.
  - by apply try_var_markers.
Qed.

Lemma var_loop_terminates w cfg :
  deref_config w = Ok cfg →
  (∀ v, v ∈ symbols cfg → var_name v ≠ "" ∧ marker_free (var_value v)) →
  ∀ m d i str,
    i ≤ String.length str →
    count_markers (string_drop i str) ≤ m →
    String.length str - i ≤ d →
    ∃ fuel r, var_loop fuel w i str = Some r.
Proof.
  intros Hw Hsyms.
  induction m as [m IHm] using lt_wf_ind.
  induction d as [|d IHd]; intros i str Hi Hm Hd.
  { exists 1, (Ok str). simpl.
    replace i with (String.length str) by lia.
    rewrite char_at_end. by rewrite decide_True. }
  destruct (decide (i = String.length str)) as [->|Hne].
  { exists 1, (Ok str). simpl. rewrite char_at_end. by rewrite decide_True. }
  destruct (get_lt_Some str i) as [c Hc]; [lia|].
  destruct (decide (c = NUL)) as [->|Hnul].
  { exists 1, (Ok str). simpl. rewrite (char_at_Some _ _ _ Hc).
    by rewrite decide_True. }
  rewrite (string_drop_get _ _ _ Hc) in Hm. cbn [count_markers] in Hm.
  destruct (decide (c = marker)) as [->|Hmark].
  - set (new := try_vars (symbols cfg) i str).
    destruct (decide (S i ≤ String.length new)) as [Hin|Hout].
    + destruct (IHm (count_markers (string_drop (S i) new))) with
        (d := String.length new - S i) (i := S i) (str := new)
        as (fuel & r & Hrun); try done.
      { pose proof (try_vars_markers (symbols cfg) i str Hsyms Hi) as Hle.
        fold new in Hle. lia. }
      exists (S fuel), r. simpl. rewrite (char_at_Some _ _ _ Hc).
      rewrite decide_False by done. rewrite decide_True by done.
      by rewrite Hw.
    + exists 2, (Fault OutOfBounds). simpl. rewrite (char_at_Some _ _ _ Hc).
      rewrite decide_False by done. rewrite decide_True by done.
      rewrite Hw. fold new. rewrite char_at_beyond; [done | lia].
  - destruct (IHd (S i) str) as (fuel & r & Hrun); [lia | lia | lia |].
    exists (S fuel), r. simpl. rewrite (char_at_Some _ _ _ Hc).
    by rewrite !decide_False by done.
Qed.

(** X6: with a live store in which every variable has a non-empty name and
    a value without marker, [do_var_replacement] terminates on every
    string. *)
Theorem X6_marker_free_values_terminate (w : world) (cfg : sway_config)
    (str : string) :
  deref_config w = Ok cfg →
  (∀ v, v ∈ symbols cfg → var_name v ≠ "" ∧ marker_free (var_value v)) →
  ∃ fuel r, do_var_replacement fuel w str = Some r.
Proof.
  intros Hw Hsyms.
  apply (var_loop_terminates w cfg Hw Hsyms
           (count_markers str) (String.length str) 0 str); try lia.
  by destruct str.
Qed.

Lemma X6_marker_free_values_terminate_witness :
  ∃ fuel r,
    do_var_replacement fuel
      (Demo.world_with [ {| var_name := "$mod"; var_value := "Mod4" |};
                         {| var_name := "Mod"; var_value := "Super" |} ])
      "bindsym $mod+x" = Some r.
Proof.
  apply (X6_marker_free_values_terminate _
           (Demo.store_with
              [ {| var_name := "$mod"; var_value := "Mod4" |};
                {| var_name := "Mod"; var_value := "Super" |} ])).
  - vm_compute. reflexivity.
  - intros v Hv. simpl in Hv.
    apply elem_of_cons in Hv as [->|Hv];
      [|apply list_elem_of_singleton in Hv as ->];
      (split; [done | by apply avoids_marker_free]).
Defined.

Lemma get_string_drop (s : string) : ∀ i x,
  String.get x (string_drop i s) = String.get (i + x) s.
Proof.
  induction s as [|a s IH]; intros [|i] x; simpl; done.
Qed.

Lemma get_replace_at i (str : string) var x :
  i ≤ String.length str →
  String.get (i + x) (replace_at i var str)
  = String.get x (var_value var
                  +:+ string_drop (i + String.length (var_name var)) str).
Proof.
  intros Hi. unfold replace_at.
  rewrite <- (length_string_take str i Hi) at 1. apply get_app_r.
Qed.

Lemma var_loop_empty_name w cfg var :
  deref_config w = Ok cfg →
  symbols cfg = [var] →
  var_name var = "" →
  var_value var ≠ "" →
  plain (var_value var) →
  ∀ fuel i str, marker_ahead i str → var_loop fuel w i str = None.
Proof.
  intros Hw Hsyms Hname Hne Hval.
  induction fuel as [|fuel IH]; intros i str (k & Hik & Hk & Hbefore); [done|].
  simpl.
  assert (∃ c, String.get i str = Some c ∧ c ≠ NUL) as (c & Hc & Hnul).
  { destruct (decide (i = k)) as [->|]; [by exists marker|].
    apply Hbefore. lia. }
  pose proof (get_Some_lt _ _ _ Hc) as Hlt.
  rewrite (char_at_Some _ _ _ Hc). rewrite decide_False by done.
  case_decide as Hm.
  - rewrite Hw, Hsyms. unfold try_vars. simpl. unfold try_var.
    rewrite Hname. rewrite decide_True
      by (apply strstr_zero_prefix; by destruct (string_drop i str)).
    apply IH. exists (i + String.length (var_value var)).
    assert (0 < String.length (var_value var))
      by (destruct (var_value var); [done | simpl; lia]).
    split; [lia|]. split.
    + rewrite get_replace_at by lia. rewrite Hname, Nat.add_0_r.
      rewrite <- (Nat.add_0_r (String.length (var_value var))), get_app_r.
      rewrite get_string_drop, Nat.add_0_r. congruence.
    + intros j Hj. replace j with (i + (j - i)) by lia.
      rewrite get_replace_at by lia. rewrite get_app_l by lia.
      destruct (get_lt_Some (var_value var) (j - i)) as [b Hb]; [lia|].
      exists b. split; [done|]. intros ->. by apply (Hval (j - i)).
  - apply IH. exists k. split; [|split; [done|]].
    + destruct (decide (i = k)) as [->|]; [congruence | lia].
    + intros j Hj. apply Hbefore. lia.
Qed.

(** X7: a variable with an empty name matches at every marker without
    consuming it, so its non-empty value is inserted again and again: with
    such a variable as the only one of the table, [do_var_replacement] does
    not return for any C string that contains the marker. *)
Theorem X7_empty_name_never_returns (w : world) (cfg : sway_config)
    (var : sway_variable) (str : string) (fuel : nat) :
  deref_config w = Ok cfg →
  symbols cfg = [var] →
  var_name var = "" →
  var_value var ≠ "" →
  plain (var_value var) →
  cstring str →
  (∃ k, String.get k str = Some marker) →
  do_var_replacement fuel w str = None.
Proof.
  intros Hw Hsyms Hname Hne Hval Hstr [k Hk].
  apply (var_loop_empty_name w cfg var); try done.
  exists k. split; [lia|]. split; [done|].
  intros j Hj. apply get_Some_lt in Hk.
  destruct (get_lt_Some str j) as [c Hc]; [lia|].
  exists c. split; [done|]. intros ->. by apply (Hstr j).
Qed.

Lemma X7_empty_name_never_returns_witness :
  do_var_replacement 1000
    (Demo.world_with [ {| var_name := ""; var_value := "x" |} ]) "a$b" = None.
Proof.
  apply (X7_empty_name_never_returns _
           (Demo.store_with [ {| var_name := ""; var_value := "x" |} ])
           {| var_name := ""; var_value := "x" |}).
  - vm_compute. reflexivity.
  - reflexivity.
  - reflexivity.
  - done.
  - by apply avoids_plain.
  - by apply avoids_cstring.
  - by exists 1.
Defined.

(** * Further properties of read_config *)

Section pass_properties.
Context {collab : Collaborators} {os : OS}.

Lemma set_current_mode_same dm c :
  current_mode c = dm → set_current_mode dm c = c.
Proof. intros <-. by destruct c. Qed.

Lemma parse_lines_inert dm is_active : ∀ file s w p c,
  config w = Some p → stores w !! p = Some c →
  current_mode c = dm →
  (∀ raw, raw ∈ file → inert raw) →
  parse_lines dm is_active file s w = Ok (s, w).
Proof.
  induction file as [|raw rest IH]; intros s w p c Hp Hc Hcur Hinert; [done|].
  simpl.
  assert (parse_line dm is_active raw s w = Ok (s, w)) as Hline.
  { destruct (Hinert raw) as [Hnul|Hbrace]; [by left| |].
    - unfold parse_line. fold (normalize raw). by rewrite decide_True.
    - rewrite (parse_line_close dm is_active raw s w p c) by done.
      by rewrite set_current_mode_same, after_id. }
  rewrite (bind_Ok _ _ _ _ _ Hline).
  apply (IH s w p c); try done. intros raw' Hraw'. apply Hinert. by right.
Qed.

Lemma line_step_events dm is_active line s c s' c' evs :
  line_step dm is_active line s c s' c' evs → Forall parse_event evs.
Proof. destruct 1; repeat constructor. Qed.

Lemma lines_run_events dm is_active ls s c s' c' evs :
  lines_run dm is_active ls s c s' c' evs → Forall parse_event evs.
Proof.
  induction 1; [constructor|].
  apply Forall_app. split; [by eapply line_step_events | done].
Qed.

Lemma line_step_flags dm is_active line s c s' c' evs :
  (∀ l c0, reloading (handle_command l c0).2 = reloading c0
           ∧ active (handle_command l c0).2 = active c0) →
  line_step dm is_active line s c s' c' evs →
  reloading c' = reloading c ∧ active c' = active c.
Proof.
  intros Hframe.
  destruct 1 as [E|E|h Hd Hh Hk|h Hd Hh Hr Ha|h c' Hd Hh Hk Hr Hc
                |h c' Hd Hh Hk Hr Hc|Hd Hh]; try done.
  - pose proof (Hframe line c) as Hq. by rewrite Hc in Hq.
  - pose proof (Hframe line c) as Hq. by rewrite Hc in Hq.
Qed.

Lemma lines_run_flags dm is_active ls s c s' c' evs :
  (∀ l c0, reloading (handle_command l c0).2 = reloading c0
           ∧ active (handle_command l c0).2 = active c0) →
  lines_run dm is_active ls s c s' c' evs →
  reloading c' = reloading c ∧ active c' = active c.
Proof.
  intros Hframe. induction 1 as [|? ? ? ? ? ? ? ? ? ? Hstep _ [IH1 IH2]];
    [done|].
  destruct (line_step_flags _ _ _ _ _ _ _ _ Hframe Hstep) as [H1 H2].
  split; congruence.
Qed.

Lemma line_step_failed_flag dm is_active line s c s' c' evs :
  (∀ l c0, failed (handle_command l c0).2 = failed c0) →
  line_step dm is_active line s c s' c' evs →
  s = negb (failed c) → s' = negb (failed c').
Proof.
  intros Hframe.
  destruct 1 as [E|E|h Hd Hh Hk|h Hd Hh Hr Ha|h c' Hd Hh Hk Hr Hc
                |h c' Hd Hh Hk Hr Hc|Hd Hh]; try done.
  pose proof (Hframe line c) as Hq. rewrite Hc in Hq. simpl in Hq.
  by rewrite Hq.
Qed.

Lemma lines_run_failed_flag dm is_active ls s c s' c' evs :
  (∀ l c0, failed (handle_command l c0).2 = failed c0) →
  lines_run dm is_active ls s c s' c' evs →
  s = negb (failed c) → s' = negb (failed c').
Proof.
  intros Hframe. induction 1; eauto using line_step_failed_flag.
Qed.
End pass_properties.

(** X8: a file of nothing but blank lines, comments and closing braces
    leaves the store as [config_defaults] made it, apart from [active],
    which is [is_active]; the result is true and no handler is called.
    Nothing is assumed of the tokenizer and the handlers. *)
Theorem X8_inert_file_gives_the_default_store
    {collab : Collaborators} {os : OS}
    (file : list string) (is_active : bool) (w : world) :
  wf_world w →
  (∀ raw, raw ∈ file → inert raw) →
  ∃ w',
    read_config file is_active w = Ok (true, w')
    ∧ config w' = Some (new_store_addr w)
    ∧ stores w' !! new_store_addr w
      = Some (if is_active
              then set_active true (default_config (new_mode_addr w))
              else default_config (new_mode_addr w))
    ∧ trace w'
      = trace w
        ++ (if is_active
            then [EvLog L_DEBUG "Performing configuration file reload" "";
                  EvArrangeWindows]
            else []).
Proof.
  intros Hwf Hinert.
  pose proof (read_config_prologue_run is_active w) as Hpro. simpl in Hpro.
  set (p := new_store_addr w) in *. set (dm := new_mode_addr w) in *.
  match type of Hpro with _ = Ok (_, ?x) => set (w1 := x) in * end.
  assert (parse_lines dm is_active file true w1 = Ok (true, w1)) as Hrun.
  { apply (parse_lines_inert dm is_active file true w1 p
             (initial_store is_active dm)); try done.
    - apply lookup_after.
    - by destruct is_active. }
  pose proof (read_config_epilogue_run is_active (config w) w1 p
                (initial_store is_active dm)
                (config_after _ _ _ _) (lookup_after _ _ _ _)) as Hepi.
  simpl in Hepi.
  eexists. split.
  { unfold read_config. rewrite (bind_Ok _ _ _ _ _ Hpro). simpl.
    rewrite (bind_Ok _ _ _ _ _ Hrun).
    erewrite bind_Ok; [reflexivity|].
    apply Hepi. intros o Ho.
    pose proof (old_store_not_new w o Hwf Ho) as Hne. split; [done|].
    unfold w1, after; simpl. rewrite lookup_insert_ne by done. by apply Hwf. }
  split; [done|]. split.
  - simpl. destruct (config w) as [o|] eqn:Ho.
    + rewrite lookup_delete_ne by by apply old_store_not_new.
      rewrite lookup_insert_eq. by destruct is_active.
    + rewrite lookup_insert_eq. by destruct is_active.
  - simpl. destruct is_active; simpl; by rewrite <- ?app_assoc, ?app_nil_r.
Qed.

Lemma X8_inert_file_gives_the_default_store_witness :
  ∃ w',
    read_config (collab := Demo.collaborators)
      [ "# only a comment"; ""; "   "; "}" ] false Demo.world_empty
    = Ok (true, w')
    ∧ config w' = Some (new_store_addr Demo.world_empty)
    ∧ stores w' !! new_store_addr Demo.world_empty
      = Some (default_config (new_mode_addr Demo.world_empty))
    ∧ trace w' = [].
Proof.
  apply (X8_inert_file_gives_the_default_store
           (collab := Demo.collaborators) (os := Demo.os_i3)
           [ "# only a comment"; ""; "   "; "}" ] false Demo.world_empty).
  - intros old Hold. discriminate Hold.
  - intros raw Hraw.
    repeat (apply elem_of_cons in Hraw as [->|Hraw];
            [first [by left | by right]|]).
    by apply elem_of_nil in Hraw.
Defined.

(** X9: [read_config] allocates one store and frees one: afterwards the
    allocated stores are the new one and those of before without the
    previous live store, and every store other than these two is
    untouched. *)
Theorem X9_one_store_allocated_one_freed {collab : Collaborators} {os : OS}
    (file : list string) (is_active : bool) (w : world) :
  tokenizer_total →
  wf_world w →
  ∃ s w',
    read_config file is_active w = Ok (s, w')
    ∧ dom (stores w')
      = {[new_store_addr w]}
        ∪ (dom (stores w)
           ∖ match config w with Some old => {[old]} | None => ∅ end)
    ∧ ∀ q, q ≠ new_store_addr w → config w ≠ Some q →
           stores w' !! q = stores w !! q.
Proof.
  intros Htok Hwf.
  destruct (read_config_run file is_active w Htok Hwf)
    as (s & c & evs & _ & Hread).
  simpl in Hread. eexists s, _. split; [exact Hread|]. simpl.
  destruct (config w) as [o|] eqn:Ho.
  - pose proof (old_store_not_new w o Hwf Ho) as Hne. split.
    + rewrite dom_delete_L, dom_insert_L. set_solver by eauto.
    + intros q Hq Hqo.
      rewrite lookup_delete_ne by congruence.
      by rewrite lookup_insert_ne.
  - split.
    + rewrite dom_insert_L. set_solver.
    + intros q Hq _. by rewrite lookup_insert_ne.
Qed.

Lemma X9_one_store_allocated_one_freed_witness :
  ∃ s w',
    read_config (collab := Demo.collaborators) Demo.config_file true
      (Demo.world_with []) = Ok (s, w')
    ∧ dom (stores w')
      = {[new_store_addr (Demo.world_with [])]}
        ∪ (dom (stores (Demo.world_with [])) ∖ {[1%positive]}).
Proof.
  destruct (X9_one_store_allocated_one_freed
              (collab := Demo.collaborators) (os := Demo.os_i3)
              Demo.config_file true (Demo.world_with [])
              demo_tokenizer_total)
    as (s & w' & Hread & Hdom & _).
  { intros old [= <-]. exists (Demo.store_with []).
    exact (proj2 demo_world_live). }
  exists s, w'. split; [exact Hread | exact Hdom].
Defined.

(** X10: the flags of a reload.  When the handlers leave [reloading] and
    [active] alone, both flags equal [is_active] whenever the loop test is
    evaluated, and after [read_config] returned [reloading] is false and
    [active] is [is_active]. *)
Theorem X10_reloading_is_set_during_the_parse
    {collab : Collaborators} {os : OS}
    (file : list string) (is_active : bool) (w : world) :
  tokenizer_total →
  wf_world w →
  (∀ l c, reloading (handle_command l c).2 = reloading c
          ∧ active (handle_command l c).2 = active c) →
  ∃ w1,
    read_config_prologue is_active w = Ok ((config w, new_mode_addr w), w1)
    ∧ (∀ w', w' ∈ parse_states (new_mode_addr w) is_active file true w1 →
             ∃ c, deref_config w' = Ok c
                  ∧ reloading c = is_active ∧ active c = is_active)
    ∧ ∃ s w' c,
        read_config file is_active w = Ok (s, w')
        ∧ deref_config w' = Ok c
        ∧ reloading c = false ∧ active c = is_active.
Proof.
  intros Htok Hwf Hframe.
  pose proof (read_config_prologue_run is_active w) as Hpro. simpl in Hpro.
  set (dm := new_mode_addr w) in *.
  assert (reloading (initial_store is_active dm) = is_active
          ∧ active (initial_store is_active dm) = is_active) as Hinit
    by by destruct is_active.
  eexists. split; [exact Hpro|]. split.
  - intros w' Hin.
    destruct (parse_states_live dm is_active
                (λ c, reloading c = is_active ∧ active c = is_active) Htok)
      with (file := file) (s := true) (w' := w')
           (w := after w (new_store_addr w) (initial_store is_active dm)
                   (if is_active
                    then [EvLog L_DEBUG
                            "Performing configuration file reload" ""]
                    else []))
           (p := new_store_addr w) (c := initial_store is_active dm)
      as (Hp' & (c' & Hc' & Hflags) & _); try done.
    { intros line s c s' c' evs Hstep [H1 H2].
      destruct (line_step_flags _ _ _ _ _ _ _ _ Hframe Hstep) as [H3 H4].
      split; congruence. }
    { apply lookup_after. }
    exists c'. split; [|done]. unfold deref_config. by rewrite Hp', Hc'.
  - destruct (read_config_run file is_active w Htok Hwf)
      as (s & c & evs & Hrun & Hread).
    simpl in Hread. fold dm in Hrun.
    destruct (lines_run_flags _ _ _ _ _ _ _ _ Hframe Hrun) as [H1 H2].
    match type of Hread with
    | _ = Ok (_, {| stores := _; config := _; trace := ?tr |}) =>
        destruct (read_config_final_store w
                    (if is_active then set_reloading false c else c) tr Hwf)
          as [Hnew _]
    end.
    eexists s, _, _. split; [exact Hread|]. split.
    + unfold deref_config. simpl config. cbv iota beta. by rewrite Hnew.
    + destruct Hinit as [H3 H4].
      destruct is_active; simpl; split; congruence.
Qed.

Lemma X10_reloading_is_set_during_the_parse_witness :
  ∃ s w' c,
    read_config (collab := Demo.collaborators) Demo.config_file true
      (Demo.world_with []) = Ok (s, w')
    ∧ deref_config w' = Ok c
    ∧ reloading c = false ∧ active c = true.
Proof.
  destruct (X10_reloading_is_set_during_the_parse
              (collab := Demo.collaborators) (os := Demo.os_i3)
              Demo.config_file true (Demo.world_with [])
              demo_tokenizer_total)
    as (w1 & _ & _ & H).
  { intros old [= <-]. exists (Demo.store_with []).
    exact (proj2 demo_world_live). }
  { intros l c. split; reflexivity. }
  exact H.
Defined.

(** X11: a reload defers nothing.  With [is_active] true and handlers that
    leave [cmd_queue] alone, the queue of the new store is empty after the
    pass, and [handle_command] has been called for every line whose handler
    is classified requires-running-session. *)
Theorem X11_reload_defers_nothing {collab : Collaborators} {os : OS}
    (file : list string) (w : world) :
  tokenizer_total →
  wf_world w →
  (∀ line c, cmd_queue (handle_command line c).2 = cmd_queue c) →
  ∃ s w' c evs,
    read_config file true w = Ok (s, w')
    ∧ deref_config w' = Ok c
    ∧ trace w' = trace w ++ evs
    ∧ cmd_queue c = []
    ∧ ∀ raw, raw ∈ file → requires_session (normalize raw) = true →
             normalize raw ∈ handled evs.
Proof.
  intros Htok Hwf Hframe.
  destruct (read_config_run file true w Htok Hwf)
    as (s & c & evs & Hrun & Hread).
  simpl in Hread.
  match type of Hread with
  | _ = Ok (_, {| stores := _; config := _; trace := ?tr |}) =>
      destruct (read_config_final_store w (set_reloading false c) tr Hwf)
        as [Hnew _]
  end.
  eexists s, _, _, _. split; [exact Hread|]. split.
  { unfold deref_config. simpl config. cbv iota beta. by rewrite Hnew. }
  split; [done|]. split.
  - simpl. rewrite (lines_run_queue _ _ _ _ _ _ _ _ Hframe Hrun).
    change (cmd_queue (initial_store true (new_mode_addr w))) with (@nil string).
    clear. induction (normalize <$> file) as [|l ls IH]; [done|].
    simpl. rewrite andb_false_r. exact IH.
  - intros raw Hraw Hreq.
    rewrite (handled_of_pass true evs
             : handled (EvLog L_DEBUG "Performing configuration file reload" ""
                          :: evs ++ [EvArrangeWindows]) = handled evs).
    rewrite (lines_run_handled _ _ _ _ _ _ _ _ Hrun).
    apply list_elem_of_In, filter_In. split.
    + apply list_elem_of_In, list_elem_of_fmap. by exists raw.
    + apply requires_session_spec in Hreq as (Hd & h & Hh & Hr).
      unfold immediate. rewrite (is_directive_true _ Hd), Hh, Hr. simpl.
      done.
Qed.

Lemma X11_reload_defers_nothing_witness :
  ∃ s w' c evs,
    read_config (collab := Demo.collaborators) Demo.config_file true
      (Demo.world_with []) = Ok (s, w')
    ∧ deref_config w' = Ok c
    ∧ trace w' = trace (Demo.world_with []) ++ evs
    ∧ cmd_queue c = []
    ∧ normalize (collab := Demo.collaborators) "exec term" ∈ handled evs.
Proof.
  destruct (X11_reload_defers_nothing
              (collab := Demo.collaborators) (os := Demo.os_i3)
              Demo.config_file (Demo.world_with [])
              demo_tokenizer_total)
    as (s & w' & c & evs & Hread & Hc & Htr & Hq & Hcalls).
  { intros old [= <-]. exists (Demo.store_with []).
    exact (proj2 demo_world_live). }
  { intros l c. reflexivity. }
  exists s, w', c, evs. split; [exact Hread|]. split; [exact Hc|].
  split; [exact Htr|]. split; [exact Hq|].
  apply (Hcalls "exec term"); [|reflexivity].
  do 2 right. left.
Defined.

(** X12: [arrange_windows] is called once per reload, as the last thing
    that [read_config] does before it frees the previous store, and never
    on a load with [is_active] false. *)
Theorem X12_arrange_windows_ends_a_reload {collab : Collaborators} {os : OS}
    (file : list string) (is_active : bool) (w : world) :
  tokenizer_total →
  wf_world w →
  ∃ s w' evs,
    read_config file is_active w = Ok (s, w')
    ∧ (EvArrangeWindows ∉ evs)
    ∧ trace w'
      = trace w ++ evs ++ (if is_active then [EvArrangeWindows] else []).
Proof.
  intros Htok Hwf.
  destruct (read_config_run file is_active w Htok Hwf)
    as (s & c & evs & Hrun & Hread).
  simpl in Hread.
  eexists s, _,
    ((if is_active
      then [EvLog L_DEBUG "Performing configuration file reload" ""]
      else []) ++ evs).
  split; [exact Hread|]. split.
  - pose proof (lines_run_events _ _ _ _ _ _ _ _ Hrun) as Hevs.
    intros [Hin|Hin]%elem_of_app.
    + destruct is_active; [|by apply elem_of_nil in Hin].
      by apply list_elem_of_singleton in Hin.
    + rewrite Forall_forall in Hevs. by apply Hevs in Hin.
  - simpl. by rewrite <- !app_assoc.
Qed.

Lemma X12_arrange_windows_ends_a_reload_witness :
  ∃ s w' evs,
    read_config (collab := Demo.collaborators) Demo.config_file true
      (Demo.world_with []) = Ok (s, w')
    ∧ (EvArrangeWindows ∉ evs)
    ∧ trace w' = trace (Demo.world_with []) ++ evs ++ [EvArrangeWindows].
Proof.
  apply (X12_arrange_windows_ends_a_reload
           (collab := Demo.collaborators) (os := Demo.os_i3)
           Demo.config_file true (Demo.world_with []) demo_tokenizer_total).
  intros old [= <-]. exists (Demo.store_with []).
  exact (proj2 demo_world_live).
Defined.

(** X13: the result and the [failed] flag agree.  When the handlers leave
    [failed] alone, [read_config] returns true exactly when the new store
    has [failed] false. *)
Theorem X13_result_mirrors_the_failed_flag {collab : Collaborators} {os : OS}
    (file : list string) (is_active : bool) (w : world) :
  tokenizer_total →
  wf_world w →
  (∀ l c, failed (handle_command l c).2 = failed c) →
  ∃ s w' c,
    read_config file is_active w = Ok (s, w')
    ∧ deref_config w' = Ok c
    ∧ s = negb (failed c).
Proof.
  intros Htok Hwf Hframe.
  destruct (read_config_run file is_active w Htok Hwf)
    as (s & c & evs & Hrun & Hread).
  simpl in Hread.
  match type of Hread with
  | _ = Ok (_, {| stores := _; config := _; trace := ?tr |}) =>
      destruct (read_config_final_store w
                  (if is_active then set_reloading false c else c) tr Hwf)
        as [Hnew _]
  end.
  eexists s, _, _. split; [exact Hread|]. split.
  { unfold deref_config. simpl config. cbv iota beta. by rewrite Hnew. }
  assert (s = negb (failed c)) as ->.
  { apply (lines_run_failed_flag _ _ _ _ _ _ _ _ Hframe Hrun).
    by destruct is_active. }
  by destruct is_active.
Qed.

Lemma X13_result_mirrors_the_failed_flag_witness :
  ∃ s w' c,
    read_config (collab := Demo.collaborators) Demo.config_file false
      Demo.world_empty = Ok (s, w')
    ∧ deref_config w' = Ok c
    ∧ s = negb (failed c).
Proof.
  apply (X13_result_mirrors_the_failed_flag
           (collab := Demo.collaborators) (os := Demo.os_i3)
           Demo.config_file false Demo.world_empty demo_tokenizer_total).
  - intros old Hold. discriminate Hold.
  - intros l c. reflexivity.
Defined.

(** * Further properties of get_config_path and load_config *)

Section path_properties.
Context {collab : Collaborators} {os : OS}.

Lemma first_readable_Some l p :
  first_readable l = Some p →
  access_R_OK p = true
  ∧ ∃ skipped rest,
      l = skipped ++ p :: rest
      ∧ probed l = skipped ++ [p]
      ∧ Forall (λ q, access_R_OK q = false) skipped.
Proof.
  induction l as [|q l IH]; simpl; [done|].
  destruct (access_R_OK q) eqn:Hq.
  - intros [= <-]. split; [done|]. by exists [], l.
  - intros Hl. destruct (IH Hl) as (Hp & skipped & rest & -> & Hpr & Hall).
    split; [done|]. exists (q :: skipped), rest.
    split; [done|]. split; [by rewrite Hpr | by constructor].
Qed.

Lemma first_readable_None l :
  first_readable l = None →
  probed l = l ∧ Forall (λ q, access_R_OK q = false) l.
Proof.
  induction l as [|q l IH]; simpl; [done|].
  destruct (access_R_OK q) eqn:Hq; [done|].
  intros Hl. destruct (IH Hl) as [Hpr Hall].
  split; [by rewrite Hpr | by constructor].
Qed.
End path_properties.

(** X14: [get_config_path] faults exactly when HOME is unset while
    XDG_CONFIG_HOME is set, and the fault is a null dereference; a call of
    [load_config] without an explicit file faults with it. *)
Theorem X14_path_search_faults_only_without_home
    {collab : Collaborators} {os : OS} :
  ((∃ f, get_config_path = Fault f)
   ↔ getenv "HOME" = None ∧ is_Some (getenv "XDG_CONFIG_HOME"))
  ∧ (∀ f, get_config_path = Fault f →
          f = NullDeref ∧ ∀ w, load_config None w = Fault NullDeref).
Proof.
  assert (getenv "HOME" = None → is_Some (getenv "XDG_CONFIG_HOME") →
          get_config_path = Fault NullDeref) as Hfault.
  { intros Hhome [x Hx]. unfold get_config_path. by rewrite Hhome, Hx. }
  assert (∀ f, get_config_path = Fault f →
               getenv "HOME" = None ∧ is_Some (getenv "XDG_CONFIG_HOME"))
    as Honly.
  { intros f Hf.
    destruct (getenv "HOME") as [h|] eqn:Hhome.
    - destruct get_config_path_search as (tr & Hok & _);
        [left; rewrite Hhome; by eexists | congruence].
    - destruct (getenv "XDG_CONFIG_HOME") as [x|] eqn:Hx; [by eauto|].
      destruct get_config_path_search as (tr & Hok & _);
        [by right | congruence]. }
  split.
  - split; [intros [f Hf]; by eapply Honly|].
    intros [Hhome Hx]. exists NullDeref. by apply Hfault.
  - intros f Hf. destruct (Honly f Hf) as [Hhome Hx].
    pose proof (Hfault Hhome Hx) as Hnull. split; [congruence|].
    intros w. unfold load_config, call_get_config_path. run_monad.
    by rewrite Hnull.
Qed.

Lemma X14_path_search_faults_only_without_home_witness :
  get_config_path (collab := Demo.collaborators) (os := Demo.os_no_home)
  = Fault NullDeref
  ∧ load_config (collab := Demo.collaborators) (os := Demo.os_no_home) None
      Demo.world_empty = Fault NullDeref.
Proof.
  destruct (X14_path_search_faults_only_without_home
              (collab := Demo.collaborators) (os := Demo.os_no_home))
    as [_ Hload].
  destruct (Hload NullDeref eq_refl) as [_ Hall].
  split; [reflexivity | exact (Hall Demo.world_empty)].
Defined.

(** X15: what the search returns.  When HOME is set or XDG_CONFIG_HOME is
    not, a path returned is readable, it is the last one probed, and the
    candidates probed before it are those that precede it in the search
    order, all of them unreadable; when nothing is returned, every
    candidate was probed, in order, and none is readable. *)
Theorem X15_returned_path_is_readable {collab : Collaborators} {os : OS} :
  is_Some (getenv "HOME") ∨ getenv "XDG_CONFIG_HOME" = None →
  ∃ r tr,
    get_config_path = Ok (r, tr)
    ∧ match r with
      | Some p =>
          access_R_OK p = true
          ∧ ∃ skipped rest,
              candidates = skipped ++ p :: rest
              ∧ accesses tr = skipped ++ [p]
              ∧ Forall (λ q, access_R_OK q = false) skipped
      | None =>
          accesses tr = candidates
          ∧ Forall (λ q, access_R_OK q = false) candidates
      end.
Proof.
  intros Henv. destruct (get_config_path_search Henv) as (tr & Hpath & Hacc).
  exists (first_readable candidates), tr. split; [done|].
  destruct (first_readable candidates) as [p|] eqn:Hfirst.
  - destruct (first_readable_Some _ _ Hfirst)
      as (Hp & skipped & rest & Hc & Hpr & Hall).
    split; [done|]. exists skipped, rest. by rewrite Hacc.
  - destruct (first_readable_None _ Hfirst) as [Hpr Hall].
    by rewrite Hacc.
Qed.

Lemma X15_returned_path_is_readable_witness :
  ∃ r tr,
    get_config_path (collab := Demo.collaborators) (os := Demo.os_bare)
    = Ok (r, tr)
    ∧ match r with
      | Some p =>
          access_R_OK (OS := Demo.os_bare) p = true
          ∧ ∃ skipped rest,
              candidates (collab := Demo.collaborators) (os := Demo.os_bare)
              = skipped ++ p :: rest
              ∧ accesses tr = skipped ++ [p]
              ∧ Forall (λ q, access_R_OK (OS := Demo.os_bare) q = false)
                  skipped
      | None =>
          accesses tr
          = candidates (collab := Demo.collaborators) (os := Demo.os_bare)
          ∧ Forall (λ q, access_R_OK (OS := Demo.os_bare) q = false)
              (candidates (collab := Demo.collaborators) (os := Demo.os_bare))
      end.
Proof.
  apply (X15_returned_path_is_readable
           (collab := Demo.collaborators) (os := Demo.os_bare)).
  right. reflexivity.
Defined.

(** X16: [load_config] with a file that opens is a reload exactly when a
    store is live.  It writes one log line, calls [input_init] and runs
    [read_config] on the lines with [is_active] true if the global [config]
    is set and false if it is null; it returns with a live, allocated store
    whatever the result; [arrange_windows] is called if and only if a store
    was live before; and with an explicit file name no path is probed. *)
Theorem X16_load_config_reloads_when_a_store_is_live
    {collab : Collaborators} {os : OS}
    (path : string) (lines : list string) (w : world) :
  tokenizer_total →
  wf_world w →
  fopen_r path = Some lines →
  load_config (Some path) w
  = read_config lines (bool_decide (is_Some (config w)))
      {| stores := stores w; config := config w;
         trace := trace w ++ [EvLog L_INFO "Loading config" ""; EvInputInit] |}
  ∧ ∃ s w' evs,
      load_config (Some path) w = Ok (s, w')
      ∧ wf_world w'
      ∧ is_Some (config w')
      ∧ trace w' = trace w ++ evs
      ∧ (EvArrangeWindows ∈ evs ↔ is_Some (config w))
      ∧ ∀ p r, EvAccess p r ∉ evs.
Proof.
  intros Htok Hwf Hopen.
  assert (load_config (Some path) w
          = read_config lines (bool_decide (is_Some (config w)))
              {| stores := stores w; config := config w;
                 trace := trace w
                          ++ [EvLog L_INFO "Loading config" ""; EvInputInit] |})
    as Hload.
  { unfold load_config. run_monad. rewrite Hopen. run_monad.
    rewrite <- app_assoc. simpl.
    destruct (config w) as [p|]; reflexivity. }
  split; [exact Hload|]. rewrite Hload.
  set (w0 := {| stores := stores w; config := config w;
                trace := trace w
                         ++ [EvLog L_INFO "Loading config" ""; EvInputInit] |}).
  set (ia := bool_decide (is_Some (config w))).
  destruct (read_config_run lines ia w0 Htok Hwf)
    as (s & c & evs & Hrun & Hread).
  simpl in Hread.
  pose proof (lines_run_events _ _ _ _ _ _ _ _ Hrun) as Hevs.
  rewrite Forall_forall in Hevs.
  eexists s, _,
    ([EvLog L_INFO "Loading config" ""; EvInputInit]
     ++ (if ia
         then [EvLog L_DEBUG "Performing configuration file reload" ""]
         else [])
     ++ evs ++ (if ia then [EvArrangeWindows] else [])).
  split; [exact Hread|]. split.
  { intros old [= <-]. simpl.
    match goal with
    | |- is_Some (?m !! _) =>
        match type of Hread with
        | _ = Ok (_, {| stores := _; config := _; trace := ?tr |}) =>
            destruct (read_config_final_store w0
                        (if ia then set_reloading false c else c) tr Hwf)
              as [Hnew _]
        end
    end.
    simpl in Hnew. rewrite Hnew. by eexists. }
  split; [by eexists|]. split; [simpl; by rewrite <- !app_assoc|].
  split.
  - split.
    + intros Hin. subst ia. case_bool_decide as Hlive; [done|].
      repeat (apply elem_of_cons in Hin as [Hin|Hin]; [done|]).
      rewrite app_nil_r in Hin. simpl in Hin. by apply Hevs in Hin.
    + intros Hlive. subst ia. rewrite bool_decide_eq_true_2 by done.
      do 3 right. apply elem_of_app. right. left.
  - intros p r Hin.
    repeat (apply elem_of_cons in Hin as [Hin|Hin]; [done|]).
    apply elem_of_app in Hin as [Hin|Hin].
    + destruct ia; [|by apply elem_of_nil in Hin].
      by apply list_elem_of_singleton in Hin.
    + apply elem_of_app in Hin as [Hin|Hin]; [by apply Hevs in Hin|].
      destruct ia; [|by apply elem_of_nil in Hin].
      by apply list_elem_of_singleton in Hin.
Qed.

Lemma X16_load_config_reloads_when_a_store_is_live_witness :
  ∃ s w' evs,
    load_config (collab := Demo.collaborators) (os := Demo.os_i3)
      (Some "/home/u/.i3/config") (Demo.world_with []) = Ok (s, w')
    ∧ wf_world w'
    ∧ is_Some (config w')
    ∧ trace w' = trace (Demo.world_with []) ++ evs
    ∧ (EvArrangeWindows ∈ evs ↔ is_Some (config (Demo.world_with [])))
    ∧ ∀ p r, EvAccess p r ∉ evs.
Proof.
  apply (X16_load_config_reloads_when_a_store_is_live
           (collab := Demo.collaborators) (os := Demo.os_i3)
           "/home/u/.i3/config" Demo.config_file (Demo.world_with [])
           demo_tokenizer_total).
  - intros old [= <-]. exists (Demo.store_with []).
    exact (proj2 demo_world_live).
  - reflexivity.
Defined.
